(** * Circuit breaker: a shallow embedding of [circuit-breaker.ts]

    The repository holds two variants of one class [CircuitBreaker]:

    - the callback variant ([src/circuit-breaker.ts]): a command is a
      function of two callbacks [(success, failed)], [run] takes an optional
      fallback, buckets have four counters;
    - the promise variant (the second source file): a command returns a value
      or a promise, [run] is [async], buckets have a fifth counter [ignores]
      and the breaker has a [circuitFilter].

    Each variant is embedded in a module of its own that follows its source
    top to bottom.  Methods mutate [this], call the observers and may throw,
    so they live in a small state-and-exception monad over a [World]: the
    object, the closure variables of its pending activations, and the trace
    of calls made to user code.

    Conventions of the embedding.
    - The counters of a bucket are JavaScript numbers that start at 0 and are
      only ever incremented: they are [N], and so are their sums.  Sizes,
      indices and the volume threshold are numbers that hold integers: they
      are [Z].  Percentages are binary64 floats, computed with the primitive
      floats, as the division in [_calculateMetrics] is one.
    - [null] and [undefined] are [None]; the code only tests them with [==]
      and [!], which do not tell them apart.
    - The observers [onCircuitOpen], [onCircuitClose], a fallback and the
      command are user code: a call to one is an [Event] of the trace.  They
      are taken not to call back into the breaker; only a command is taken to
      be able to throw.
    - Timers and promise jobs are run by the environment: one [Action] each.
      [clearTimeout] has no counterpart: the environment may run a deadline
      callback at any moment, also after the code cleared it, which only adds
      behaviours.  The periods of the timers and [destroy], which stops the
      ticks, are not part of the embedding. *)

From Stdlib Require Import ZArith Floats Lia.
From stdpp Require Import base option list strings.

Local Open Scope Z_scope.

(** ** JavaScript values that cross the breaker's interface *)

Inductive JsValue :=
| JsUndefined
| JsNull
| JsNumber (z : Z)
| JsString (s : string)
| JsError (name message : string).

(** [new TypeError(...)], raised by a property access on [undefined]. *)
Definition TypeError : JsValue := JsError "TypeError" "Cannot read properties of undefined".

(** The number that holds the integer [n], rounded to nearest even. *)
Definition number_of_N (n : N) : float :=
  SF2Prim (binary_normalize 53 1024 (Z.of_N n) 0 false).
Arguments number_of_N : simpl never.

(** ** The monad of methods: state [S], exceptions [JsValue] *)

Inductive Completion (A : Type) :=
| Normal (a : A)
| Throw (e : JsValue).
Arguments Normal {A} a.
Arguments Throw {A} e.

Definition M (S A : Type) : Type := S -> Completion A * S.

Definition ret {S A} (a : A) : M S A := fun s => (Normal a, s).

Definition bind {S A B} (m : M S A) (k : A -> M S B) : M S B :=
  fun s => match m s with
           | (Normal a, s') => k a s'
           | (Throw e, s') => (Throw e, s')
           end.

Definition throw {S A} (e : JsValue) : M S A := fun s => (Throw e, s).

Definition gets {S A} (f : S -> A) : M S A := fun s => (Normal (f s), s).

Definition modify {S} (f : S -> S) : M S unit := fun s => (Normal tt, f s).

(** [when c m] is [if (c) { m }]. *)
Definition when {S} (c : bool) (m : M S unit) : M S unit :=
  if c then m else ret tt.

Definition exec {S A} (m : M S A) (s : S) : S := snd (m s).

Definition eval {S A} (m : M S A) (s : S) : Completion A := fst (m s).

(** [m] relates every state to the state it leaves. *)
Definition preserves {S A} (R : S -> S -> Prop) (m : M S A) : Prop :=
  forall s, R s (exec m s).

Declare Scope js_scope.
Delimit Scope js_scope with js.
Notation "x <- m ;; k" := (bind m (fun x => k))
  (at level 20, m at level 99, k at level 200, only parsing) : js_scope.
Notation "m ;; k" := (bind m (fun _ => k))
  (at level 100, k at level 200, right associativity, only parsing) : js_scope.

(** ** Types that both sources declare alike *)

Record Metrics := mkMetrics {
  totalCount : N;
  errorCount : N;
  errorPercentage : float
}.

(** [OPEN = 0], [HALF_OPEN = 1], [CLOSED = 2]. *)
Inductive CircuitBreakerStatus := OPEN | HALF_OPEN | CLOSED.

Definition status_code (s : CircuitBreakerStatus) : Z :=
  match s with OPEN => 0 | HALF_OPEN => 1 | CLOSED => 2 end.

(** [x == CircuitBreaker.OPEN] and the like, on a field that may be [null]:
    [null == 0] is false. *)
Definition loose_eq (x : option CircuitBreakerStatus) (s : CircuitBreakerStatus) : bool :=
  match x with
  | Some y => status_code y =? status_code s
  | None => false
  end.

(** [x == null]: true of [null] and [undefined] only. *)
Definition is_null {A} (x : option A) : bool :=
  match x with Some _ => false | None => true end.

(** [opts.x || d] on a number that holds an integer: [undefined] and [0]
    are falsy. *)
Definition or_default (x : option Z) (d : Z) : Z :=
  match x with
  | Some v => if v =? 0 then d else v
  | None => d
  end.

(** [opts.x || d] on any number: [undefined], [0], [-0] and [NaN] are falsy. *)
Definition or_default_number (x : option float) (d : float) : float :=
  match x with
  | Some v => if (PrimFloat.eqb v 0 || PrimFloat.is_nan v)%bool then d else v
  | None => d
  end.

(** [a[i]] as a reference into the array: [undefined] out of range. *)
Definition array_ref {A} (a : list A) (i : Z) : option nat :=
  if ((0 <=? i) && (i <? Z.of_nat (length a)))%bool then Some (Z.to_nat i) else None.

(** [!timeout] on a timer handle that may be [null]: handles are numbers,
    and [0] is falsy as [null] is. *)
Definition no_handle (t : option nat) : bool :=
  match t with
  | Some (S _) => false
  | _ => true
  end.

(** The sum of [f] over a list. *)
Definition Sigma {A} (f : A -> N) (l : list A) : N :=
  foldr (fun x acc => (f x + acc)%N) 0%N l.

(** The state of a promise. *)
Inductive PromiseState :=
| Pending
| Fulfilled (v : JsValue)
| Rejected (e : JsValue).

(** ** The promise variant *)

Module PromiseBreaker.

Local Open Scope js_scope.

Record Bucket := mkBucket {
  failures : N;
  successes : N;
  timeouts : N;
  ignores : N;
  shortCircuits : N
}.

(** The names ['successes' | 'failures' | 'timeouts' | 'ignores'] that
    [increment] takes. *)
Inductive Counter := c_successes | c_failures | c_timeouts | c_ignores.

(** [bucket[prop]++] on the record. *)
Definition bump (prop : Counter) (b : Bucket) : Bucket :=
  match prop with
  | c_successes =>
      mkBucket (failures b) (successes b + 1)%N (timeouts b) (ignores b) (shortCircuits b)
  | c_failures =>
      mkBucket (failures b + 1)%N (successes b) (timeouts b) (ignores b) (shortCircuits b)
  | c_timeouts =>
      mkBucket (failures b) (successes b) (timeouts b + 1)%N (ignores b) (shortCircuits b)
  | c_ignores =>
      mkBucket (failures b) (successes b) (timeouts b) (ignores b + 1)%N (shortCircuits b)
  end.

(** [bucket.shortCircuits++] on the record. *)
Definition bump_shortCircuits (b : Bucket) : Bucket :=
  mkBucket (failures b) (successes b) (timeouts b) (ignores b) (shortCircuits b + 1)%N.

(** [Command<T> = () => Promise<T> | T]: what a call of it does. *)
Inductive Command :=
| returns (v : JsValue)
| throws (e : JsValue)
| returns_promise (p : PromiseState).

Definition CircuitOpenError : JsValue := JsError "CIRCUIT_OPEN" "Circuit Open".

Definition CircuitWorkerTimeout : JsValue :=
  JsError "CIRCUIT_WORKER_TIMEOUT" "Circuit worker timeout".

(** [Promise.resolve] of a promise is that promise. *)
Definition wrapPromise (fn : Command) : PromiseState :=
  match fn with
  | returns ret => Fulfilled ret
  | throws e => Rejected e
  | returns_promise ret => ret
  end.

Record CircuitBreaker := mkCircuitBreaker {
  windowDuration : Z;
  numBuckets : Z;
  timeoutDuration : Z;
  errorThreshold : float;
  volumeThreshold : Z;
  circuitFilter : JsValue -> bool;
  _buckets : list Bucket;
  _state : option CircuitBreakerStatus;
  _forced : option CircuitBreakerStatus
}.

(** The constructor's options, the two observers apart. *)
Record Options := mkOptions {
  opt_windowDuration : option Z;
  opt_numBuckets : option Z;
  opt_timeoutDuration : option Z;
  opt_errorThreshold : option float;
  opt_volumeThreshold : option Z;
  opt_circuitFilter : option (JsValue -> bool)
}.

(** One activation of [_executeCommand]: its variable [timeout], the promise
    [wrapPromise(command)] and the promise it returns. *)
Record Activation := mkActivation {
  timeout : option nat;
  wrapped : PromiseState;
  returned : PromiseState
}.

Inductive Event :=
| onCircuitOpen (metrics : Metrics)
| onCircuitClose (metrics : Metrics)
| command_called (id : nat).

(** The object, the variable [bucketIndex] of [_startTicker], the activations
    of [_executeCommand] in the order of their creation, and the calls made
    to user code, oldest first. *)
Record World := mkWorld {
  this : CircuitBreaker;
  bucketIndex : Z;
  activations : list Activation;
  trace : list Event
}.

Definition set_buckets (bs : list Bucket) (b : CircuitBreaker) : CircuitBreaker :=
  mkCircuitBreaker (windowDuration b) (numBuckets b) (timeoutDuration b) (errorThreshold b)
    (volumeThreshold b) (circuitFilter b) bs (_state b) (_forced b).

Definition set_state (s : option CircuitBreakerStatus) (b : CircuitBreaker) : CircuitBreaker :=
  mkCircuitBreaker (windowDuration b) (numBuckets b) (timeoutDuration b) (errorThreshold b)
    (volumeThreshold b) (circuitFilter b) (_buckets b) s (_forced b).

Definition set_forced (s : option CircuitBreakerStatus) (b : CircuitBreaker) : CircuitBreaker :=
  mkCircuitBreaker (windowDuration b) (numBuckets b) (timeoutDuration b) (errorThreshold b)
    (volumeThreshold b) (circuitFilter b) (_buckets b) (_state b) s.

Definition on_this (f : CircuitBreaker -> CircuitBreaker) (w : World) : World :=
  mkWorld (f (this w)) (bucketIndex w) (activations w) (trace w).

Definition set_bucketIndex (i : Z) (w : World) : World :=
  mkWorld (this w) i (activations w) (trace w).

Definition on_activations (f : list Activation -> list Activation) (w : World) : World :=
  mkWorld (this w) (bucketIndex w) (f (activations w)) (trace w).

(** A call to user code. *)
Definition emit (e : Event) : M World unit :=
  modify (fun w => mkWorld (this w) (bucketIndex w) (activations w) (trace w ++ [e])).

Definition _createBucket : Bucket := mkBucket 0 0 0 0 0.

Definition forceClose : M World unit :=
  modify (on_this (fun b => set_forced (_state b) b)) ;;
  modify (on_this (set_state (Some CLOSED))).

Definition forceOpen : M World unit :=
  modify (on_this (fun b => set_forced (_state b) b)) ;;
  modify (on_this (set_state (Some OPEN))).

Definition unforce : M World unit :=
  modify (on_this (fun b => set_state (_forced b) b)) ;;
  modify (on_this (set_forced None)).

Definition isOpen : M World bool :=
  b <- gets this ;;
  ret (loose_eq (_state b) OPEN).

(** The function [tick] that [_startTicker] hands to [setInterval]. *)
Definition tick : M World unit :=
  b <- gets this ;;
  when (Z.of_nat (length (_buckets b)) >? numBuckets b)
    (modify (on_this (fun b => set_buckets (tail (_buckets b)) b))) ;;
  modify (fun w => set_bucketIndex (bucketIndex w + 1) w) ;;
  i <- gets bucketIndex ;;
  when (i >? numBuckets b)
    (modify (set_bucketIndex 0) ;;
     open <- isOpen ;;
     when open (modify (on_this (set_state (Some HALF_OPEN))))) ;;
  modify (on_this (fun b => set_buckets (_buckets b ++ [_createBucket]) b)).

(** [let bucketIndex = 0], and [setInterval(tick, bucketDuration)]: from
    then on the environment runs [tick]. *)
Definition _startTicker : M World unit :=
  modify (set_bucketIndex 0).

(** The constructor.  The field [_forced] is left [undefined]. *)
Definition new (opts : Options) : World :=
  exec _startTicker
    (mkWorld
       (mkCircuitBreaker
          (or_default (opt_windowDuration opts) 10000)
          (or_default (opt_numBuckets opts) 10)
          (or_default (opt_timeoutDuration opts) 3000)
          (or_default_number (opt_errorThreshold opts) 50)
          (or_default (opt_volumeThreshold opts) 5)
          (default (fun _ => true) (opt_circuitFilter opts))
          [_createBucket] (Some CLOSED) None)
       0 [] []).

(** A reference to the last bucket, [undefined] on an empty array. *)
Definition _lastBucket : M World (option nat) :=
  b <- gets this ;;
  ret (array_ref (_buckets b) (Z.of_nat (length (_buckets b)) - 1)).

(** [bucket[prop]++] through a reference. *)
Definition increment_counter (bucket : option nat) (f : Bucket -> Bucket) : M World unit :=
  match bucket with
  | Some i => modify (on_this (fun b => set_buckets (alter f i (_buckets b)) b))
  | None => throw TypeError
  end.

(** [bucket.successes] through a reference. *)
Definition read_counter (bucket : option nat) (f : Bucket -> N) : M World N :=
  b <- gets this ;;
  match bucket ≫= (fun i => _buckets b !! i) with
  | Some x => ret (f x)
  | None => throw TypeError
  end.

Definition _incrementShortCircuits : M World unit :=
  bucket <- _lastBucket ;;
  increment_counter bucket bump_shortCircuits.

(** The loop of [_calculateMetrics]: [(totalCount, errorCount)] after the
    buckets [bs], from the same pair before them. *)
Definition count_buckets (bs : list Bucket) (acc : N * N) : N * N :=
  fold_left
    (fun '(totalCount, errorCount) bucket =>
       let errors := (failures bucket + timeouts bucket)%N in
       (totalCount + (errors + successes bucket), errorCount + errors)%N)
    bs acc.

Definition _calculateMetrics : M World Metrics :=
  b <- gets this ;;
  let '(totalCount, errorCount) := count_buckets (_buckets b) (0, 0)%N in
  let errorPercentage :=
    (number_of_N errorCount / number_of_N (if (0 <? totalCount)%N then totalCount else 1%N)
     * 100)%float in
  ret (mkMetrics totalCount errorCount errorPercentage).

Definition _updateState : M World unit :=
  metrics <- _calculateMetrics ;;
  b <- gets this ;;
  if loose_eq (_state b) HALF_OPEN then
    bucket <- _lastBucket ;;
    s <- read_counter bucket successes ;;
    let lastCommandFailed := ((s =? 0)%N && (0 <? errorCount metrics)%N)%bool in
    if lastCommandFailed then
      modify (on_this (set_state (Some OPEN))) ;;
      emit (onCircuitOpen metrics)
    else
      modify (on_this (set_state (Some CLOSED))) ;;
      emit (onCircuitClose metrics)
  else
    let overErrorThreshold := PrimFloat.ltb (errorThreshold b) (errorPercentage metrics) in
    let overVolumeThreshold := Z.of_N (totalCount metrics) >? volumeThreshold b in
    let overThreshold := (overVolumeThreshold && overErrorThreshold)%bool in
    when overThreshold
      (modify (on_this (set_state (Some OPEN))) ;;
       emit (onCircuitOpen metrics)).

(** [let timeout] of activation [id]. *)
Definition get_timeout (id : nat) : M World (option nat) :=
  gets (fun w => activations w !! id ≫= timeout).

Definition set_timeout (id : nat) (t : option nat) : M World unit :=
  modify (on_activations (alter (fun a => mkActivation t (wrapped a) (returned a)) id)).

(** [resolve(result)] and [reject(reason)] of the promise that
    [_executeCommand] returns: a settled promise stays as it is. *)
Definition settle (id : nat) (p : PromiseState) : M World unit :=
  modify (on_activations (alter (fun a =>
    match returned a with
    | Pending => mkActivation (timeout a) (wrapped a) p
    | _ => a
    end) id)).

(** [increment(prop)()] in the activation [id]. *)
Definition increment (id : nat) (prop : Counter) : M World unit :=
  bucket <- _lastBucket ;;
  increment_counter bucket (bump prop) ;;
  b <- gets this ;;
  when (is_null (_forced b)) _updateState ;;
  set_timeout id None.

(** The first function given to [then]. *)
Definition on_fulfilled (id : nat) (result : JsValue) : M World unit :=
  t <- get_timeout id ;;
  if no_handle t then ret tt else
  increment id c_successes ;;
  settle id (Fulfilled result).

(** The second function given to [then]. *)
Definition on_rejected (id : nat) (reason : JsValue) : M World unit :=
  t <- get_timeout id ;;
  if no_handle t then ret tt else
  b <- gets this ;;
  (if negb (circuitFilter b reason) then increment id c_ignores
   else increment id c_failures) ;;
  settle id (Rejected reason).

(** The function given to [setTimeout]. *)
Definition on_deadline (id : nat) : M World unit :=
  t <- get_timeout id ;;
  if no_handle t then ret tt else
  increment id c_timeouts ;;
  settle id (Rejected CircuitWorkerTimeout).

(** The executor of [new Promise] runs at once: it calls the command inside
    [wrapPromise], registers the two reactions and arms the timer, whose
    handle is a fresh positive number.  The reactions and the deadline run
    later, each as an action of the environment. *)
Definition _executeCommand (command : Command) : M World nat :=
  id <- gets (fun w => length (activations w)) ;;
  emit (command_called id) ;;
  modify (on_activations (fun l =>
    l ++ [mkActivation (Some (S id)) (wrapPromise command) Pending])) ;;
  ret id.

(** The promise that [run] returns: settled already, or the one of an
    activation. *)
Inductive RunPromise :=
| settled_promise (p : PromiseState)
| activation_promise (id : nat).

(** An [async] function: a throw in its body rejects the promise it returns. *)
Definition async (body : M World RunPromise) : M World RunPromise :=
  fun w => match body w with
           | (Normal p, w') => (Normal p, w')
           | (Throw e, w') => (Normal (settled_promise (Rejected e)), w')
           end.

Definition run (command : Command) : M World RunPromise :=
  async
    (open <- isOpen ;;
     if open then
       _incrementShortCircuits ;;
       throw CircuitOpenError
     else
       id <- _executeCommand command ;;
       ret (activation_promise id)).

(** What happens to a breaker: calls of its methods, and the callbacks that
    the environment runs.  [command_settles id p] settles the promise the
    command of activation [id] returned, if it is pending; [reaction_job id]
    runs the reaction of [then] that fits the state of that promise. *)
Inductive Action :=
| call_run (command : Command)
| call_forceClose
| call_forceOpen
| call_unforce
| interval_fires
| deadline_fires (id : nat)
| command_settles (id : nat) (p : PromiseState)
| reaction_job (id : nat).

Definition step (a : Action) : M World unit :=
  match a with
  | call_run command => _ <- run command ;; ret tt
  | call_forceClose => forceClose
  | call_forceOpen => forceOpen
  | call_unforce => unforce
  | interval_fires => tick
  | deadline_fires id => on_deadline id
  | command_settles id p =>
      modify (on_activations (alter (fun a =>
        match wrapped a with
        | Pending => mkActivation (timeout a) p (returned a)
        | _ => a
        end) id))
  | reaction_job id =>
      p <- gets (fun w => wrapped <$> activations w !! id) ;;
      match p with
      | Some (Fulfilled result) => on_fulfilled id result
      | Some (Rejected reason) => on_rejected id reason
      | _ => ret tt
      end
  end.

(** The world after the actions [acts], one after the other; an exception
    that leaves an action does not stop the next ones. *)
Definition after (acts : list Action) (w : World) : World :=
  fold_left (fun w a => exec (step a) w) acts w.

(** The metrics as the specification words them: [totalCount] is the sum of
    [successes + failures + timeouts], [errorCount] that of
    [failures + timeouts], and [errorPercentage] is
    [errorCount / max(totalCount, 1) * 100]. *)
Definition specified_metrics (bs : list Bucket) : Metrics :=
  let totalCount := Sigma (fun b => successes b + failures b + timeouts b)%N bs in
  let errorCount := Sigma (fun b => failures b + timeouts b)%N bs in
  mkMetrics totalCount errorCount
    (number_of_N errorCount / number_of_N (N.max totalCount 1) * 100)%float.

(** Two buckets with the same three counters of outcomes. *)
Definition same_outcomes (x y : Bucket) : Prop :=
  successes x = successes y /\ failures x = failures y /\ timeouts x = timeouts y.

(** The world once the state evaluation has opened the circuit and told
    [onCircuitOpen], and once it has closed it and told [onCircuitClose]. *)
Definition opened (m : Metrics) (w : World) : World :=
  exec (emit (onCircuitOpen m)) (on_this (set_state (Some OPEN)) w).

Definition closed (m : Metrics) (w : World) : World :=
  exec (emit (onCircuitClose m)) (on_this (set_state (Some CLOSED)) w).

(** The world once an outcome [f] has been counted in the active bucket. *)
Definition counted (f : Bucket -> Bucket) (w : World) : World :=
  on_this (fun b => set_buckets (alter f (pred (length (_buckets b))) (_buckets b)) b) w.

(** The race of activation [id] is decided: its [timeout] is falsy. *)
Definition decided (id : nat) (w : World) : Prop :=
  exists a, activations w !! id = Some a /\ no_handle (timeout a) = true.

(** The race of activation [id] is open: its [timeout] holds a handle. *)
Definition racing (id : nat) (w : World) : Prop :=
  exists a, activations w !! id = Some a /\ no_handle (timeout a) = false.

(** While the race of an activation is open, the promise it returned is
    pending. *)
Definition racing_is_pending (w : World) : Prop :=
  forall id x, activations w !! id = Some x ->
               no_handle (timeout x) = false -> returned x = Pending.

(** The callbacks of activation [id] that the environment runs. *)
Definition handler_of (id : nat) (a : Action) : bool :=
  match a with
  | deadline_fires j | reaction_job j => Nat.eqb j id
  | _ => false
  end.

(** The actions by which the command executor runs: [run] and the callbacks
    of its activations. *)
Definition of_executor (a : Action) : bool :=
  match a with
  | call_run _ | deadline_fires _ | command_settles _ _ | reaction_job _ => true
  | _ => false
  end.

(** [new CircuitBreaker()]: no option is given. *)
Definition no_options : Options := mkOptions None None None None None None.

(** The helpers [fail] and [success] of the tests, for the run that makes
    activation [id]: the call of [run], then the reaction job. *)
Definition test_fail (id : nat) : list Action :=
  [call_run (throws (JsString "fail")); reaction_job id].

Definition test_success (id : nat) : list Action :=
  [call_run (returns JsNull); reaction_job id].

(** [await Promise.all([run(c1), run(c2), ...])] on a breaker that has
    [first] activations and whose circuit is not open: the calls of [run] in
    order, then the reaction jobs in order. *)
Definition await_all (first : nat) (commands : list Command) : list Action :=
  map call_run commands ++ map reaction_job (seq first (length commands)).

(** The rule for a half-open circuit in the words of the specification: the
    state evaluation, run on [w], closes the circuit and tells
    [onCircuitClose] exactly when the active bucket has a success and the
    window has no error. *)
Definition closes_iff_success_and_no_error (w : World) : Prop :=
  forall m active,
    eval _calculateMetrics w = Normal m ->
    last (_buckets (this w)) = Some active ->
    (_state (this (exec _updateState w)) = Some CLOSED
     /\ trace (exec _updateState w) = trace w ++ [onCircuitClose m])
    <-> (1 <= successes active /\ errorCount m = 0)%N.

(** A run of the breaker that ends in a probe: ten ticks, six failures that
    open the circuit, the tick that makes it half-open, and a call of [run]
    with a command that returns. *)
Definition probe_history : list Action :=
  replicate 10 interval_fires ++ flat_map test_fail (seq 0 6)
  ++ [interval_fires; call_run (returns JsNull)].

(** What a bucket has counted: outcomes, ignored failures and short
    circuits. *)
Definition recorded (b : Bucket) : N :=
  (successes b + failures b + timeouts b + ignores b + shortCircuits b)%N.

(** What the buckets of the window have counted, and the number of
    activations whose race is open. *)
Definition recorded_total (w : World) : N :=
  Sigma recorded (_buckets (this w)).

Definition open_races (w : World) : nat :=
  length (filter (fun a => no_handle (timeout a) = false) (activations w)).

(** The calls of [run] among the actions. *)
Definition is_run (a : Action) : bool :=
  match a with
  | call_run _ => true
  | _ => false
  end.

(** What the ticker keeps, for a breaker of [n] buckets: at least one bucket
    and at most [n + 1], and a count of ticks between 0 and [n]. *)
Definition ticker_invariant (n : Z) (w : World) : Prop :=
  numBuckets (this w) = n
  /\ 1 <= Z.of_nat (length (_buckets (this w))) <= Z.max (n + 1) 1
  /\ 0 <= bucketIndex w <= Z.max n 0.

End PromiseBreaker.

(** ** The callback variant *)

Module CallbackBreaker.

Local Open Scope js_scope.

Record Bucket := mkBucket {
  failures : N;
  successes : N;
  timeouts : N;
  shortCircuits : N
}.

(** The names ['successes' | 'failures' | 'timeouts'] that [increment]
    takes. *)
Inductive Counter := c_successes | c_failures | c_timeouts.

(** [bucket[prop]++] on the record. *)
Definition bump (prop : Counter) (b : Bucket) : Bucket :=
  match prop with
  | c_successes => mkBucket (failures b) (successes b + 1)%N (timeouts b) (shortCircuits b)
  | c_failures => mkBucket (failures b + 1)%N (successes b) (timeouts b) (shortCircuits b)
  | c_timeouts => mkBucket (failures b) (successes b) (timeouts b + 1)%N (shortCircuits b)
  end.

(** [bucket.shortCircuits++] on the record. *)
Definition bump_shortCircuits (b : Bucket) : Bucket :=
  mkBucket (failures b) (successes b) (timeouts b) (shortCircuits b + 1)%N.

(** The two callbacks a command receives. *)
Inductive Callback := success | failed.

(** [Command = (success, failed) => void]: what a call of it does before it
    returns: the callbacks it calls, in order, and the value it throws in the
    end, if it throws.  A callback it keeps and calls later is an action of
    the environment. *)
Record Command := mkCommand {
  calls : list Callback;
  thrown : option JsValue
}.

(** [Fallback = () => void]: a fallback has no behaviour but that of being
    called. *)
Inductive Fallback := the_fallback.

Record CircuitBreaker := mkCircuitBreaker {
  windowDuration : Z;
  numBuckets : Z;
  timeoutDuration : Z;
  errorThreshold : float;
  volumeThreshold : Z;
  _buckets : list Bucket;
  _state : option CircuitBreakerStatus;
  _forced : option CircuitBreakerStatus
}.

(** The constructor's options, the two observers apart. *)
Record Options := mkOptions {
  opt_windowDuration : option Z;
  opt_numBuckets : option Z;
  opt_timeoutDuration : option Z;
  opt_errorThreshold : option float;
  opt_volumeThreshold : option Z
}.

(** One activation of [_executeCommand]: its variable [timeout]. *)
Record Activation := mkActivation {
  timeout : option nat
}.

Inductive Event :=
| onCircuitOpen (metrics : Metrics)
| onCircuitClose (metrics : Metrics)
| command_called (id : nat)
| fallback_called.

(** The object, the variable [bucketIndex] of [_startTicker], the activations
    of [_executeCommand] in the order of their creation, and the calls made
    to user code, oldest first. *)
Record World := mkWorld {
  this : CircuitBreaker;
  bucketIndex : Z;
  activations : list Activation;
  trace : list Event
}.

Definition set_buckets (bs : list Bucket) (b : CircuitBreaker) : CircuitBreaker :=
  mkCircuitBreaker (windowDuration b) (numBuckets b) (timeoutDuration b) (errorThreshold b)
    (volumeThreshold b) bs (_state b) (_forced b).

Definition set_state (s : option CircuitBreakerStatus) (b : CircuitBreaker) : CircuitBreaker :=
  mkCircuitBreaker (windowDuration b) (numBuckets b) (timeoutDuration b) (errorThreshold b)
    (volumeThreshold b) (_buckets b) s (_forced b).

Definition set_forced (s : option CircuitBreakerStatus) (b : CircuitBreaker) : CircuitBreaker :=
  mkCircuitBreaker (windowDuration b) (numBuckets b) (timeoutDuration b) (errorThreshold b)
    (volumeThreshold b) (_buckets b) (_state b) s.

Definition on_this (f : CircuitBreaker -> CircuitBreaker) (w : World) : World :=
  mkWorld (f (this w)) (bucketIndex w) (activations w) (trace w).

Definition set_bucketIndex (i : Z) (w : World) : World :=
  mkWorld (this w) i (activations w) (trace w).

Definition on_activations (f : list Activation -> list Activation) (w : World) : World :=
  mkWorld (this w) (bucketIndex w) (f (activations w)) (trace w).

(** A call to user code. *)
Definition emit (e : Event) : M World unit :=
  modify (fun w => mkWorld (this w) (bucketIndex w) (activations w) (trace w ++ [e])).

Definition forceClose : M World unit :=
  modify (on_this (fun b => set_forced (_state b) b)) ;;
  modify (on_this (set_state (Some CLOSED))).

Definition forceOpen : M World unit :=
  modify (on_this (fun b => set_forced (_state b) b)) ;;
  modify (on_this (set_state (Some OPEN))).

Definition unforce : M World unit :=
  modify (on_this (fun b => set_state (_forced b) b)) ;;
  modify (on_this (set_forced None)).

Definition isOpen : M World bool :=
  b <- gets this ;;
  ret (loose_eq (_state b) OPEN).

Definition _createBucket : Bucket := mkBucket 0 0 0 0.

(** The function [tick] that [_startTicker] hands to [setInterval]. *)
Definition tick : M World unit :=
  b <- gets this ;;
  when (Z.of_nat (length (_buckets b)) >? numBuckets b)
    (modify (on_this (fun b => set_buckets (tail (_buckets b)) b))) ;;
  modify (fun w => set_bucketIndex (bucketIndex w + 1) w) ;;
  i <- gets bucketIndex ;;
  when (i >? numBuckets b)
    (modify (set_bucketIndex 0) ;;
     open <- isOpen ;;
     when open (modify (on_this (set_state (Some HALF_OPEN))))) ;;
  modify (on_this (fun b => set_buckets (_buckets b ++ [_createBucket]) b)).

(** [let bucketIndex = 0], and [setInterval(tick, bucketDuration)]: from
    then on the environment runs [tick]. *)
Definition _startTicker : M World unit :=
  modify (set_bucketIndex 0).

(** The constructor.  The field [_forced] is left [undefined]. *)
Definition new (opts : Options) : World :=
  exec _startTicker
    (mkWorld
       (mkCircuitBreaker
          (or_default (opt_windowDuration opts) 10000)
          (or_default (opt_numBuckets opts) 10)
          (or_default (opt_timeoutDuration opts) 3000)
          (or_default_number (opt_errorThreshold opts) 50)
          (or_default (opt_volumeThreshold opts) 5)
          [_createBucket] (Some CLOSED) None)
       0 [] []).

(** A reference to the last bucket, [undefined] on an empty array. *)
Definition _lastBucket : M World (option nat) :=
  b <- gets this ;;
  ret (array_ref (_buckets b) (Z.of_nat (length (_buckets b)) - 1)).

(** [bucket[prop]++] through a reference. *)
Definition increment_counter (bucket : option nat) (f : Bucket -> Bucket) : M World unit :=
  match bucket with
  | Some i => modify (on_this (fun b => set_buckets (alter f i (_buckets b)) b))
  | None => throw TypeError
  end.

(** [bucket.successes] through a reference. *)
Definition read_counter (bucket : option nat) (f : Bucket -> N) : M World N :=
  b <- gets this ;;
  match bucket ≫= (fun i => _buckets b !! i) with
  | Some x => ret (f x)
  | None => throw TypeError
  end.

(** The loop of [_calculateMetrics]: [(totalCount, errorCount)] after the
    buckets [bs], from the same pair before them. *)
Definition count_buckets (bs : list Bucket) (acc : N * N) : N * N :=
  fold_left
    (fun '(totalCount, errorCount) bucket =>
       let errors := (failures bucket + timeouts bucket)%N in
       (totalCount + (errors + successes bucket), errorCount + errors)%N)
    bs acc.

Definition _calculateMetrics : M World Metrics :=
  b <- gets this ;;
  let '(totalCount, errorCount) := count_buckets (_buckets b) (0, 0)%N in
  let errorPercentage :=
    (number_of_N errorCount / number_of_N (if (0 <? totalCount)%N then totalCount else 1%N)
     * 100)%float in
  ret (mkMetrics totalCount errorCount errorPercentage).

Definition _updateState : M World unit :=
  metrics <- _calculateMetrics ;;
  b <- gets this ;;
  if loose_eq (_state b) HALF_OPEN then
    bucket <- _lastBucket ;;
    s <- read_counter bucket successes ;;
    let lastCommandFailed := ((s =? 0)%N && (0 <? errorCount metrics)%N)%bool in
    if lastCommandFailed then
      modify (on_this (set_state (Some OPEN)))
    else
      modify (on_this (set_state (Some CLOSED))) ;;
      emit (onCircuitClose metrics)
  else
    let overErrorThreshold := PrimFloat.ltb (errorThreshold b) (errorPercentage metrics) in
    let overVolumeThreshold := Z.of_N (totalCount metrics) >? volumeThreshold b in
    let overThreshold := (overVolumeThreshold && overErrorThreshold)%bool in
    when overThreshold
      (modify (on_this (set_state (Some OPEN))) ;;
       emit (onCircuitOpen metrics)).

(** [let timeout] of activation [id]. *)
Definition get_timeout (id : nat) : M World (option nat) :=
  gets (fun w => activations w !! id ≫= timeout).

Definition set_timeout (id : nat) (t : option nat) : M World unit :=
  modify (on_activations (alter (fun _ => mkActivation t) id)).

(** [increment(prop)()] in the activation [id]. *)
Definition increment (id : nat) (prop : Counter) : M World unit :=
  t <- get_timeout id ;;
  if no_handle t then ret tt else
  bucket <- _lastBucket ;;
  increment_counter bucket (bump prop) ;;
  b <- gets this ;;
  when (is_null (_forced b)) _updateState ;;
  set_timeout id None.

(** The closure that a callback of activation [id] is. *)
Definition callback (id : nat) (c : Callback) : M World unit :=
  match c with
  | success => increment id c_successes
  | failed => increment id c_failures
  end.

(** The calls that a command makes before it returns. *)
Fixpoint call_back (id : nat) (cs : list Callback) : M World unit :=
  match cs with
  | [] => ret tt
  | c :: cs => callback id c ;; call_back id cs
  end.

(** [setTimeout] arms the timer, whose handle is a fresh positive number,
    and then the command is called. *)
Definition _executeCommand (command : Command) : M World unit :=
  id <- gets (fun w => length (activations w)) ;;
  modify (on_activations (fun l => l ++ [mkActivation (Some (S id))])) ;;
  emit (command_called id) ;;
  call_back id (calls command) ;;
  match thrown command with
  | Some e => throw e
  | None => ret tt
  end.

(** [fallback || function () { }] is called first. *)
Definition _executeFallback (fallback : option Fallback) : M World unit :=
  match fallback with
  | Some _ => emit fallback_called
  | None => ret tt
  end ;;
  bucket <- _lastBucket ;;
  increment_counter bucket bump_shortCircuits.

Definition run (command : Command) (fallback : option Fallback) : M World unit :=
  open <- isOpen ;;
  if open then _executeFallback fallback
  else _executeCommand command.

(** What happens to a breaker: calls of its methods, and the callbacks that
    the environment runs.  [callback_called id c] is a call of a callback
    that the command of activation [id] kept. *)
Inductive Action :=
| call_run (command : Command) (fallback : option Fallback)
| call_forceClose
| call_forceOpen
| call_unforce
| interval_fires
| deadline_fires (id : nat)
| callback_called (id : nat) (c : Callback).

Definition step (a : Action) : M World unit :=
  match a with
  | call_run command fallback => run command fallback
  | call_forceClose => forceClose
  | call_forceOpen => forceOpen
  | call_unforce => unforce
  | interval_fires => tick
  | deadline_fires id => increment id c_timeouts
  | callback_called id c => callback id c
  end.

(** The world after the actions [acts], one after the other; an exception
    that leaves an action does not stop the next ones. *)
Definition after (acts : list Action) (w : World) : World :=
  fold_left (fun w a => exec (step a) w) acts w.

(** The metrics as the specification words them: [totalCount] is the sum of
    [successes + failures + timeouts], [errorCount] that of
    [failures + timeouts], and [errorPercentage] is
    [errorCount / max(totalCount, 1) * 100]. *)
Definition specified_metrics (bs : list Bucket) : Metrics :=
  let totalCount := Sigma (fun b => successes b + failures b + timeouts b)%N bs in
  let errorCount := Sigma (fun b => failures b + timeouts b)%N bs in
  mkMetrics totalCount errorCount
    (number_of_N errorCount / number_of_N (N.max totalCount 1) * 100)%float.

(** Two buckets with the same three counters of outcomes. *)
Definition same_outcomes (x y : Bucket) : Prop :=
  successes x = successes y /\ failures x = failures y /\ timeouts x = timeouts y.

(** The world once the state evaluation has opened the circuit and told
    [onCircuitOpen], and once it has closed it and told [onCircuitClose]. *)
Definition opened (m : Metrics) (w : World) : World :=
  exec (emit (onCircuitOpen m)) (on_this (set_state (Some OPEN)) w).

Definition closed (m : Metrics) (w : World) : World :=
  exec (emit (onCircuitClose m)) (on_this (set_state (Some CLOSED)) w).

(** The world once an outcome [f] has been counted in the active bucket. *)
Definition counted (f : Bucket -> Bucket) (w : World) : World :=
  on_this (fun b => set_buckets (alter f (pred (length (_buckets b))) (_buckets b)) b) w.

(** The race of activation [id] is decided: its [timeout] is falsy. *)
Definition decided (id : nat) (w : World) : Prop :=
  exists a, activations w !! id = Some a /\ no_handle (timeout a) = true.

(** The race of activation [id] is open: its [timeout] holds a handle. *)
Definition racing (id : nat) (w : World) : Prop :=
  exists a, activations w !! id = Some a /\ no_handle (timeout a) = false.

(** The callbacks of activation [id] that the environment runs. *)
Definition handler_of (id : nat) (a : Action) : bool :=
  match a with
  | deadline_fires j | callback_called j _ => Nat.eqb j id
  | _ => false
  end.

(** The actions by which the command executor runs: [run] and the callbacks
    of its activations. *)
Definition of_executor (a : Action) : bool :=
  match a with
  | call_run _ _ | deadline_fires _ | callback_called _ _ => true
  | _ => false
  end.

(** [new CircuitBreaker()]: no option is given. *)
Definition no_options : Options := mkOptions None None None None None.

(** The helpers [fail] and [success] of the tests. *)
Definition test_fail : Action := call_run (mkCommand [failed] None) None.

Definition test_success : Action := call_run (mkCommand [success] None) None.

(** What a bucket has counted: outcomes and short circuits. *)
Definition recorded (b : Bucket) : N :=
  (successes b + failures b + timeouts b + shortCircuits b)%N.

(** What the buckets of the window have counted, and the number of
    activations whose race is open. *)
Definition recorded_total (w : World) : N :=
  Sigma recorded (_buckets (this w)).

Definition open_races (w : World) : nat :=
  length (filter (fun a => no_handle (timeout a) = false) (activations w)).

(** The calls of [run] among the actions. *)
Definition is_run (a : Action) : bool :=
  match a with
  | call_run _ _ => true
  | _ => false
  end.

(** What the ticker keeps, for a breaker of [n] buckets: at least one bucket
    and at most [n + 1], and a count of ticks between 0 and [n]. *)
Definition ticker_invariant (n : Z) (w : World) : Prop :=
  numBuckets (this w) = n
  /\ 1 <= Z.of_nat (length (_buckets (this w))) <= Z.max (n + 1) 1
  /\ 0 <= bucketIndex w <= Z.max n 0.

End CallbackBreaker.

(** * Properties *)

(** ** Lists *)

Lemma app_singleton_neq {A} (l : list A) (x : A) : l ++ [x] <> l.
Proof.
  intros H. apply (f_equal length) in H. rewrite length_app in H. simpl in H. lia.
Qed.

Lemma array_ref_last {A} (older : list A) (active : A) :
  array_ref (older ++ [active]) (Z.of_nat (length (older ++ [active])) - 1)
  = Some (length older).
Proof.
  unfold array_ref. rewrite length_app. simpl.
  replace (Z.of_nat (length older + 1) - 1) with (Z.of_nat (length older)) by lia.
  rewrite Nat2Z.id.
  rewrite (proj2 (Z.leb_le 0 _)) by lia.
  rewrite (proj2 (Z.ltb_lt _ _)) by lia.
  reflexivity.
Qed.

Lemma alter_last {A} (f : A -> A) (older : list A) (active : A) :
  alter f (length older) (older ++ [active]) = older ++ [f active].
Proof.
  induction older as [|x older IH]; simpl; [reflexivity|].
  f_equal. exact IH.
Qed.

Lemma lookup_last {A} (older : list A) (active : A) :
  (older ++ [active]) !! length older = Some active.
Proof.
  induction older as [|x older IH]; simpl; [reflexivity|exact IH].
Qed.

Lemma nonempty_snoc {A} (l : list A) :
  l <> [] -> exists older active, l = older ++ [active].
Proof.
  intros H. destruct (exists_last H) as (older & active & ->). eauto.
Qed.

(** ** The monad *)

Create HintDb P_methods.
Create HintDb C_methods.

(** A property of states that holds after a method if it held before. *)
Definition keeps {S} (I : S -> Prop) : S -> S -> Prop := fun s s' => I s -> I s'.

Section Preserves.
Context {S : Type} (I : S -> Prop).

Lemma preserves_ret {A} (a : A) : preserves (keeps I) (ret a).
Proof. intros s H. exact H. Qed.

Lemma preserves_throw {A} (e : JsValue) : preserves (keeps I) (@throw S A e).
Proof. intros s H. exact H. Qed.

Lemma preserves_gets {A} (f : S -> A) : preserves (keeps I) (gets f).
Proof. intros s H. exact H. Qed.

Lemma preserves_modify (f : S -> S) :
  (forall s, I s -> I (f s)) -> preserves (keeps I) (modify f).
Proof. intros Hf s H. apply Hf, H. Qed.

Lemma preserves_bind {A B} (m : M S A) (k : A -> M S B) :
  preserves (keeps I) m -> (forall a, preserves (keeps I) (k a)) ->
  preserves (keeps I) (bind m k).
Proof.
  intros Hm Hk s H. specialize (Hm s H). unfold exec, bind in *.
  destruct (m s) as [[a|e] s']; simpl in *.
  - apply (Hk a s' Hm).
  - exact Hm.
Qed.

Lemma preserves_when (c : bool) (m : M S unit) :
  preserves (keeps I) m -> preserves (keeps I) (when c m).
Proof. intros Hm. destruct c; [exact Hm|apply preserves_ret]. Qed.

End Preserves.

(** Splits a method into its statements, down to the assignments and the
    calls it makes. *)
Ltac preserve :=
  repeat first
    [ apply preserves_ret
    | apply preserves_throw
    | apply preserves_gets
    | apply preserves_when
    | apply preserves_bind; [|intros ?]
    | match goal with
      | |- preserves _ (match ?x with _ => _ end) => destruct x
      end ].

Lemma exec_bind {S A B} (m : M S A) (k : A -> M S B) (s : S) (a : A) (s' : S) :
  m s = (Normal a, s') -> bind m k s = k a s'.
Proof. intros H. unfold bind. rewrite H. reflexivity. Qed.

Lemma loose_eq_true (x : option CircuitBreakerStatus) (s : CircuitBreakerStatus) :
  loose_eq x s = true <-> x = Some s.
Proof.
  destruct x as [y|]; simpl; [|split; discriminate].
  destruct y, s; simpl; split; intros H; try discriminate; try reflexivity;
    inversion H.
Qed.

Lemma loose_eq_false (x : option CircuitBreakerStatus) (s : CircuitBreakerStatus) :
  loose_eq x s = false <-> x <> Some s.
Proof.
  rewrite <- loose_eq_true. destruct (loose_eq x s); split; congruence.
Qed.

(** ** The promise variant: what its methods compute *)

Section PromiseFacts.
Import PromiseBreaker.

Lemma P_count_buckets_Sigma (bs : list Bucket) (t e : N) :
  count_buckets bs (t, e)
  = ((t + Sigma (fun b => successes b + failures b + timeouts b) bs)%N,
     (e + Sigma (fun b => failures b + timeouts b) bs)%N).
Proof.
  revert t e. induction bs as [|b bs IH]; intros t e; simpl.
  - f_equal; lia.
  - unfold count_buckets in *. simpl. rewrite IH. f_equal; lia.
Qed.

Lemma P_calculateMetrics_run (w : World) :
  _calculateMetrics w = (Normal (specified_metrics (_buckets (this w))), w).
Proof.
  unfold _calculateMetrics, bind, gets, ret.
  rewrite P_count_buckets_Sigma. unfold specified_metrics. simpl.
  rewrite !N.add_0_l.
  set (t := Sigma _ _). set (e := Sigma _ _).
  replace (if (0 <? t)%N then t else 1%N) with (N.max t 1); [reflexivity|].
  destruct (0 <? t)%N eqn:H.
  - apply N.ltb_lt in H. lia.
  - apply N.ltb_ge in H. lia.
Qed.

Lemma P_updateState_run_else (w : World) :
  loose_eq (_state (this w)) HALF_OPEN = false ->
  _updateState w
  = (Normal tt,
     let m := specified_metrics (_buckets (this w)) in
     if ((Z.of_N (totalCount m) >? volumeThreshold (this w))
         && PrimFloat.ltb (errorThreshold (this w)) (errorPercentage m))%bool
     then opened m w else w).
Proof.
  intros H. unfold _updateState, bind. rewrite P_calculateMetrics_run.
  unfold gets at 1. cbv beta iota. rewrite H.
  cbv zeta. destruct (_ && _)%bool; reflexivity.
Qed.

Lemma P_updateState_run_half_open (w : World) (older : list Bucket) (active : Bucket) :
  loose_eq (_state (this w)) HALF_OPEN = true ->
  _buckets (this w) = older ++ [active] ->
  _updateState w
  = (Normal tt,
     let m := specified_metrics (_buckets (this w)) in
     if ((successes active =? 0)%N && (0 <? errorCount m)%N)%bool
     then opened m w else closed m w).
Proof.
  intros H Hb. unfold _updateState, bind. rewrite P_calculateMetrics_run.
  unfold gets at 1. cbv beta iota. rewrite H.
  unfold _lastBucket, read_counter, bind, gets, ret.
  rewrite Hb, array_ref_last. cbn [mbind option_bind]. rewrite lookup_last.
  cbv zeta. destruct (_ && _)%bool; reflexivity.
Qed.

Lemma P_updateState_throws (w : World) :
  loose_eq (_state (this w)) HALF_OPEN = true ->
  _buckets (this w) = [] ->
  _updateState w = (Throw TypeError, w).
Proof.
  intros H Hb. unfold _updateState, bind. rewrite P_calculateMetrics_run.
  unfold gets at 1. cbv beta iota. rewrite H.
  unfold _lastBucket, read_counter, bind, gets, ret.
  rewrite Hb. reflexivity.
Qed.

(** The state evaluation leaves the world as it is, or opens, or closes. *)
Lemma P_updateState_cases (w : World) :
  exec _updateState w = w
  \/ exists m, exec _updateState w = opened m w \/ exec _updateState w = closed m w.
Proof.
  unfold exec. destruct (loose_eq (_state (this w)) HALF_OPEN) eqn:H.
  - destruct (_buckets (this w)) as [|b bs] eqn:Hb.
    + rewrite P_updateState_throws by assumption. left. reflexivity.
    + destruct (nonempty_snoc (b :: bs)) as (older & active & Hs); [discriminate|].
      rewrite Hs in Hb.
      rewrite (P_updateState_run_half_open w older active H Hb). simpl.
      right. eexists. destruct (_ && _)%bool; [left|right]; reflexivity.
  - rewrite P_updateState_run_else by assumption. simpl.
    destruct (_ && _)%bool; [right; eexists; left|left]; reflexivity.
Qed.

Lemma P_updateState_normal (w : World) :
  _buckets (this w) <> [] -> eval _updateState w = Normal tt.
Proof.
  intros Hb. unfold eval. destruct (loose_eq (_state (this w)) HALF_OPEN) eqn:H.
  - destruct (nonempty_snoc _ Hb) as (older & active & Hs).
    rewrite (P_updateState_run_half_open w older active H Hs). reflexivity.
  - rewrite P_updateState_run_else by assumption. reflexivity.
Qed.

(** [increment(prop)()] counts in the active bucket, evaluates the state
    unless a state is forced, and sets [timeout] to [null]. *)
Lemma P_increment_run (w : World) (id : nat) (prop : Counter)
    (older : list Bucket) (active : Bucket) :
  _buckets (this w) = older ++ [active] ->
  increment id prop w
  = (Normal tt,
     exec (set_timeout id None)
       (exec (when (is_null (_forced (this w))) _updateState)
          (on_this (set_buckets (older ++ [bump prop active])) w))).
Proof.
  intros Hb. unfold increment.
  erewrite exec_bind; cycle 1.
  { unfold _lastBucket, bind, gets, ret. rewrite Hb, array_ref_last. reflexivity. }
  erewrite exec_bind; cycle 1.
  { unfold increment_counter, modify. unfold on_this at 1. rewrite Hb, alter_last.
    reflexivity. }
  set (w1 := mkWorld _ _ _ _).
  assert (H1 : w1 = on_this (set_buckets (older ++ [bump prop active])) w) by reflexivity.
  rewrite H1. clear H1 w1.
  set (w1 := on_this _ w).
  erewrite exec_bind; cycle 1.
  { unfold gets. reflexivity. }
  assert (Hn : eval (when (is_null (_forced (this w1))) _updateState) w1 = Normal tt).
  { destruct (is_null _); simpl; [|reflexivity].
    apply P_updateState_normal. simpl. destruct older; discriminate. }
  unfold eval in Hn. unfold exec.
  change (_forced (this w)) with (_forced (this w1)).
  destruct (when _ _ w1) as [c w2] eqn:Hw. simpl in Hn. subst c.
  erewrite exec_bind; [|exact Hw]. reflexivity.
Qed.

Lemma P_updateState_activations (w : World) :
  activations (exec _updateState w) = activations w.
Proof.
  destruct (P_updateState_cases w) as [H|(m & [H|H])]; rewrite H; reflexivity.
Qed.

Lemma P_get_timeout_decided (w : World) (id : nat) :
  decided id w ->
  get_timeout id w = (Normal None, w) \/ get_timeout id w = (Normal (Some 0%nat), w).
Proof.
  intros (a & Ha & Hn). unfold get_timeout, gets. rewrite Ha. simpl.
  destruct (timeout a) as [[|n]|]; simpl in Hn; try discriminate; auto.
Qed.

Lemma P_get_timeout_racing (w : World) (id : nat) :
  racing id w -> exists n, get_timeout id w = (Normal (Some (S n)), w).
Proof.
  intros (a & Ha & Hn). unfold get_timeout, gets. rewrite Ha. simpl.
  destruct (timeout a) as [[|n]|]; simpl in Hn; try discriminate. eauto.
Qed.

(** Once the race is decided, the three callbacks of the activation do
    nothing. *)
Lemma P_on_fulfilled_decided (w : World) (id : nat) (result : JsValue) :
  decided id w -> on_fulfilled id result w = (Normal tt, w).
Proof.
  intros H. unfold on_fulfilled.
  destruct (P_get_timeout_decided w id H) as [E|E];
    rewrite (exec_bind _ _ _ _ _ E); reflexivity.
Qed.

Lemma P_on_rejected_decided (w : World) (id : nat) (reason : JsValue) :
  decided id w -> on_rejected id reason w = (Normal tt, w).
Proof.
  intros H. unfold on_rejected.
  destruct (P_get_timeout_decided w id H) as [E|E];
    rewrite (exec_bind _ _ _ _ _ E); reflexivity.
Qed.

Lemma P_on_deadline_decided (w : World) (id : nat) :
  decided id w -> on_deadline id w = (Normal tt, w).
Proof.
  intros H. unfold on_deadline.
  destruct (P_get_timeout_decided w id H) as [E|E];
    rewrite (exec_bind _ _ _ _ _ E); reflexivity.
Qed.

Lemma P_handler_decided (w : World) (id : nat) (a : Action) :
  decided id w -> handler_of id a = true -> step a w = (Normal tt, w).
Proof.
  intros H Ha. destruct a as [| | | | |j|j p|j]; simpl in Ha; try discriminate;
    apply Nat.eqb_eq in Ha; subst j; simpl.
  - apply P_on_deadline_decided, H.
  - unfold bind, gets.
    destruct (wrapped <$> activations w !! id) as [[|result|reason]|]; try reflexivity.
    + apply P_on_fulfilled_decided, H.
    + apply P_on_rejected_decided, H.
Qed.

(** While the race is open, each callback counts its outcome and settles the
    promise that was returned. *)
Lemma P_on_fulfilled_racing (w : World) (id : nat) (result : JsValue) :
  racing id w -> _buckets (this w) <> [] ->
  on_fulfilled id result w
  = (Normal tt, exec (settle id (Fulfilled result)) (exec (increment id c_successes) w)).
Proof.
  intros H Hb. unfold on_fulfilled.
  destruct (P_get_timeout_racing w id H) as (n & E).
  rewrite (exec_bind _ _ _ _ _ E). simpl.
  destruct (nonempty_snoc _ Hb) as (older & active & Hs).
  unfold exec at 2. rewrite (exec_bind _ _ _ _ _ (P_increment_run w id _ older active Hs)).
  rewrite (P_increment_run w id _ older active Hs). reflexivity.
Qed.

Lemma P_on_rejected_racing (w : World) (id : nat) (reason : JsValue) :
  racing id w -> _buckets (this w) <> [] ->
  on_rejected id reason w
  = (Normal tt,
     exec (settle id (Rejected reason))
       (exec (increment id (if circuitFilter (this w) reason then c_failures else c_ignores)) w)).
Proof.
  intros H Hb. unfold on_rejected.
  destruct (P_get_timeout_racing w id H) as (n & E).
  rewrite (exec_bind _ _ _ _ _ E). simpl.
  destruct (nonempty_snoc _ Hb) as (older & active & Hs).
  unfold bind at 1. unfold gets at 1.
  destruct (circuitFilter (this w) reason); simpl;
    unfold exec at 2; rewrite (exec_bind _ _ _ _ _ (P_increment_run w id _ older active Hs));
    rewrite (P_increment_run w id _ older active Hs); reflexivity.
Qed.

Lemma P_on_deadline_racing (w : World) (id : nat) :
  racing id w -> _buckets (this w) <> [] ->
  on_deadline id w
  = (Normal tt,
     exec (settle id (Rejected CircuitWorkerTimeout)) (exec (increment id c_timeouts) w)).
Proof.
  intros H Hb. unfold on_deadline.
  destruct (P_get_timeout_racing w id H) as (n & E).
  rewrite (exec_bind _ _ _ _ _ E). simpl.
  destruct (nonempty_snoc _ Hb) as (older & active & Hs).
  unfold exec at 2. rewrite (exec_bind _ _ _ _ _ (P_increment_run w id _ older active Hs)).
  rewrite (P_increment_run w id _ older active Hs). reflexivity.
Qed.


(** A tick rotates the buckets and counts; when the count exceeds
    [numBuckets] it starts again from zero and an open circuit becomes
    half-open. *)
Lemma P_tick_run (w : World) :
  tick w
  = (Normal tt,
     let b := this w in
     let rotated :=
       (if Z.of_nat (length (_buckets b)) >? numBuckets b
        then tail (_buckets b) else _buckets b) ++ [_createBucket] in
     let full := bucketIndex w + 1 >? numBuckets b in
     mkWorld
       (set_buckets rotated
          (if (full && loose_eq (_state b) OPEN)%bool
           then set_state (Some HALF_OPEN) b else b))
       (if full then 0 else bucketIndex w + 1)
       (activations w) (trace w)).
Proof.
  destruct w as [[wd nb td et vt cf bs st fo] bi acts tr].
  unfold tick, isOpen, bind, gets, when, modify, ret. simpl.
  destruct (Z.of_nat (length bs) >? nb); simpl;
    destruct (bi + 1 >? nb); simpl; try reflexivity;
    destruct (loose_eq st OPEN); reflexivity.
Qed.

Lemma preserves_async (I : World -> Prop) (body : M World RunPromise) :
  preserves (keeps I) body -> preserves (keeps I) (async body).
Proof.
  intros Hb w H. specialize (Hb w H). unfold exec, async in *.
  destruct (body w) as [[p|e] w']; exact Hb.
Qed.

(** The methods of the promise variant, down to their assignments. *)
#[local] Hint Unfold step run _executeCommand _incrementShortCircuits on_deadline
  on_fulfilled on_rejected increment increment_counter read_counter
  _updateState _calculateMetrics _lastBucket isOpen forceOpen forceClose
  unforce get_timeout set_timeout settle emit : P_methods.

Ltac P_methods := autounfold with P_methods.

(** No action empties the array of buckets. *)
Lemma P_step_keeps_buckets (a : Action) :
  preserves (keeps (fun w => _buckets (this w) <> [])) (step a).
Proof.
  destruct a; try (P_methods; repeat (preserve; try apply preserves_async);
    apply preserves_modify; intros [[wd nb td et vt cf bs st fo] bi acts tr]; simpl;
    first [ intros H; exact H
          | intros H E; apply H; apply (f_equal length) in E;
            rewrite length_alter in E; destruct bs; [reflexivity|discriminate] ]).
  intros w _. unfold exec. change (step interval_fires) with tick.
  rewrite P_tick_run. cbn [snd this]. cbv zeta.
  intros E. apply (f_equal length) in E. revert E.
  destruct (andb _ _); simpl; rewrite length_app; simpl; lia.
Qed.

Lemma P_decided_alter (f : Activation -> Activation) (id j : nat) (w : World) :
  (forall a, no_handle (timeout a) = true -> no_handle (timeout (f a)) = true) ->
  decided id w -> decided id (on_activations (alter f j) w).
Proof.
  intros Hf (a & Ha & Hn). unfold decided. simpl.
  destruct (decide (j = id)) as [->|Hne].
  - rewrite list_lookup_alter_eq, Ha. simpl. eauto.
  - rewrite list_lookup_alter_ne by exact Hne. eauto.
Qed.

Lemma P_decided_push (x : Activation) (id : nat) (w : World) :
  decided id w -> decided id (on_activations (fun l => l ++ [x]) w).
Proof.
  intros (a & Ha & Hn). exists a. split; [|exact Hn]. simpl.
  apply lookup_app_l_Some, Ha.
Qed.

(** A race that is decided stays decided, whatever happens next. *)
Lemma P_step_keeps_decided (id : nat) (a : Action) :
  preserves (keeps (decided id)) (step a).
Proof.
  destruct a;
    [ | | | | intros w H; unfold exec; change (step interval_fires) with tick;
            rewrite P_tick_run; exact H | | | ];
    P_methods; repeat (preserve; try apply preserves_async);
    apply preserves_modify;
    first [ intros w H; apply P_decided_push, H
          | intros w H; apply P_decided_alter;
            [intros x Hx; simpl; try destruct (returned x); try destruct (wrapped x);
             first [reflexivity|exact Hx] | exact H]
          | intros [[wd nb td et vt cf bs st fo] bi acts tr] H; exact H ].
Qed.




Lemma P_after_keeps_buckets (acts : list Action) (w : World) :
  _buckets (this w) <> [] -> _buckets (this (after acts w)) <> [].
Proof.
  revert w. induction acts as [|a acts IH]; intros w H; [exact H|].
  simpl. apply IH. apply (P_step_keeps_buckets a w H).
Qed.

(** From the constructor on, the array of buckets is never empty. *)
Lemma P_buckets_never_empty (acts : list Action) (opts : Options) :
  _buckets (this (after acts (new opts))) <> [].
Proof. apply P_after_keeps_buckets. discriminate. Qed.

End PromiseFacts.

(** ** The callback variant: what its methods compute *)

Section CallbackFacts.
Import CallbackBreaker.

Lemma C_count_buckets_Sigma (bs : list Bucket) (t e : N) :
  count_buckets bs (t, e)
  = ((t + Sigma (fun b => successes b + failures b + timeouts b) bs)%N,
     (e + Sigma (fun b => failures b + timeouts b) bs)%N).
Proof.
  revert t e. induction bs as [|b bs IH]; intros t e; simpl.
  - f_equal; lia.
  - unfold count_buckets in *. simpl. rewrite IH. f_equal; lia.
Qed.

Lemma C_calculateMetrics_run (w : World) :
  _calculateMetrics w = (Normal (specified_metrics (_buckets (this w))), w).
Proof.
  unfold _calculateMetrics, bind, gets, ret.
  rewrite C_count_buckets_Sigma. unfold specified_metrics. simpl.
  rewrite !N.add_0_l.
  set (t := Sigma _ _). set (e := Sigma _ _).
  replace (if (0 <? t)%N then t else 1%N) with (N.max t 1); [reflexivity|].
  destruct (0 <? t)%N eqn:H.
  - apply N.ltb_lt in H. lia.
  - apply N.ltb_ge in H. lia.
Qed.

Lemma C_updateState_run_else (w : World) :
  loose_eq (_state (this w)) HALF_OPEN = false ->
  _updateState w
  = (Normal tt,
     let m := specified_metrics (_buckets (this w)) in
     if ((Z.of_N (totalCount m) >? volumeThreshold (this w))
         && PrimFloat.ltb (errorThreshold (this w)) (errorPercentage m))%bool
     then opened m w else w).
Proof.
  intros H. unfold _updateState, bind. rewrite C_calculateMetrics_run.
  unfold gets at 1. cbv beta iota. rewrite H.
  cbv zeta. destruct (_ && _)%bool; reflexivity.
Qed.

(** A probe that failed opens the circuit again and tells no observer. *)
Lemma C_updateState_run_half_open (w : World) (older : list Bucket) (active : Bucket) :
  loose_eq (_state (this w)) HALF_OPEN = true ->
  _buckets (this w) = older ++ [active] ->
  _updateState w
  = (Normal tt,
     let m := specified_metrics (_buckets (this w)) in
     if ((successes active =? 0)%N && (0 <? errorCount m)%N)%bool
     then on_this (set_state (Some OPEN)) w else closed m w).
Proof.
  intros H Hb. unfold _updateState, bind. rewrite C_calculateMetrics_run.
  unfold gets at 1. cbv beta iota. rewrite H.
  unfold _lastBucket, read_counter, bind, gets, ret.
  rewrite Hb, array_ref_last. cbn [mbind option_bind]. rewrite lookup_last.
  cbv zeta. destruct (_ && _)%bool; reflexivity.
Qed.

Lemma C_updateState_throws (w : World) :
  loose_eq (_state (this w)) HALF_OPEN = true ->
  _buckets (this w) = [] ->
  _updateState w = (Throw TypeError, w).
Proof.
  intros H Hb. unfold _updateState, bind. rewrite C_calculateMetrics_run.
  unfold gets at 1. cbv beta iota. rewrite H.
  unfold _lastBucket, read_counter, bind, gets, ret.
  rewrite Hb. reflexivity.
Qed.

Lemma C_updateState_activations (w : World) :
  activations (exec _updateState w) = activations w.
Proof.
  unfold exec. destruct (loose_eq (_state (this w)) HALF_OPEN) eqn:H.
  - destruct (_buckets (this w)) as [|b bs] eqn:Hb.
    + rewrite C_updateState_throws by assumption. reflexivity.
    + destruct (nonempty_snoc (b :: bs)) as (older & active & Hs); [discriminate|].
      rewrite Hs in Hb.
      rewrite (C_updateState_run_half_open w older active H Hb). simpl.
      destruct (_ && _)%bool; reflexivity.
  - rewrite C_updateState_run_else by assumption. simpl.
    destruct (_ && _)%bool; reflexivity.
Qed.

Lemma C_updateState_normal (w : World) :
  _buckets (this w) <> [] -> eval _updateState w = Normal tt.
Proof.
  intros Hb. unfold eval. destruct (loose_eq (_state (this w)) HALF_OPEN) eqn:H.
  - destruct (nonempty_snoc _ Hb) as (older & active & Hs).
    rewrite (C_updateState_run_half_open w older active H Hs). reflexivity.
  - rewrite C_updateState_run_else by assumption. reflexivity.
Qed.

Lemma C_get_timeout_decided (w : World) (id : nat) :
  decided id w ->
  get_timeout id w = (Normal None, w) \/ get_timeout id w = (Normal (Some 0%nat), w).
Proof.
  intros (a & Ha & Hn). unfold get_timeout, gets. rewrite Ha. simpl.
  destruct (timeout a) as [[|n]|]; simpl in Hn; try discriminate; auto.
Qed.

Lemma C_get_timeout_racing (w : World) (id : nat) :
  racing id w -> exists n, get_timeout id w = (Normal (Some (S n)), w).
Proof.
  intros (a & Ha & Hn). unfold get_timeout, gets. rewrite Ha. simpl.
  destruct (timeout a) as [[|n]|]; simpl in Hn; try discriminate. eauto.
Qed.

(** Once the race is decided, [increment(prop)()] returns at its first
    line. *)
Lemma C_increment_decided (w : World) (id : nat) (prop : Counter) :
  decided id w -> increment id prop w = (Normal tt, w).
Proof.
  intros H. unfold increment.
  destruct (C_get_timeout_decided w id H) as [E|E];
    rewrite (exec_bind _ _ _ _ _ E); reflexivity.
Qed.

(** While the race is open, [increment(prop)()] counts in the active bucket,
    evaluates the state unless a state is forced, and sets [timeout] to
    [null]. *)
Lemma C_increment_racing (w : World) (id : nat) (prop : Counter)
    (older : list Bucket) (active : Bucket) :
  racing id w ->
  _buckets (this w) = older ++ [active] ->
  increment id prop w
  = (Normal tt,
     exec (set_timeout id None)
       (exec (when (is_null (_forced (this w))) _updateState)
          (on_this (set_buckets (older ++ [bump prop active])) w))).
Proof.
  intros Hr Hb. unfold increment.
  destruct (C_get_timeout_racing w id Hr) as (n & E).
  rewrite (exec_bind _ _ _ _ _ E). cbn [no_handle].
  erewrite exec_bind; cycle 1.
  { unfold _lastBucket, bind, gets, ret. rewrite Hb, array_ref_last. reflexivity. }
  erewrite exec_bind; cycle 1.
  { unfold increment_counter, modify. unfold on_this at 1. rewrite Hb, alter_last.
    reflexivity. }
  set (w1 := mkWorld _ _ _ _).
  assert (H1 : w1 = on_this (set_buckets (older ++ [bump prop active])) w) by reflexivity.
  rewrite H1. clear H1 w1.
  set (w1 := on_this _ w).
  erewrite exec_bind; cycle 1.
  { unfold gets. reflexivity. }
  assert (Hn : eval (when (is_null (_forced (this w1))) _updateState) w1 = Normal tt).
  { destruct (is_null _); simpl; [|reflexivity].
    apply C_updateState_normal. simpl. destruct older; discriminate. }
  unfold eval in Hn. unfold exec.
  change (_forced (this w)) with (_forced (this w1)).
  destruct (when _ _ w1) as [c w2] eqn:Hw. simpl in Hn. subst c.
  erewrite exec_bind; [|exact Hw]. reflexivity.
Qed.

(** After it has counted, the race of the activation is decided. *)
Lemma C_increment_decides (w : World) (id : nat) (prop : Counter) :
  racing id w -> _buckets (this w) <> [] ->
  decided id (exec (increment id prop) w).
Proof.
  intros Hr Hb. destruct (nonempty_snoc _ Hb) as (older & active & Hs).
  unfold exec at 1. rewrite (C_increment_racing w id prop older active Hr Hs).
  destruct Hr as (a & Ha & _).
  cbn [snd]. set (w1 := on_this _ w).
  assert (Hact : activations (exec (when (is_null (_forced (this w))) _updateState) w1)
                 = activations w).
  { destruct (is_null _); simpl; [rewrite C_updateState_activations|]; reflexivity. }
  set (w2 := exec (when _ _) w1) in *.
  unfold decided, set_timeout, exec, modify, on_activations. cbn [snd activations].
  rewrite Hact. rewrite !list_lookup_alter_eq, Ha. simpl.
  eexists. split; reflexivity.
Qed.

Lemma C_handler_decided (w : World) (id : nat) (a : Action) :
  decided id w -> handler_of id a = true -> step a w = (Normal tt, w).
Proof.
  intros H Ha. destruct a as [| | | | |j|j c]; simpl in Ha; try discriminate;
    apply Nat.eqb_eq in Ha; subst j; simpl.
  - apply C_increment_decided, H.
  - destruct c; apply C_increment_decided, H.
Qed.

(** A tick rotates the buckets and counts; when the count exceeds
    [numBuckets] it starts again from zero and an open circuit becomes
    half-open. *)
Lemma C_tick_run (w : World) :
  tick w
  = (Normal tt,
     let b := this w in
     let rotated :=
       (if Z.of_nat (length (_buckets b)) >? numBuckets b
        then tail (_buckets b) else _buckets b) ++ [_createBucket] in
     let full := bucketIndex w + 1 >? numBuckets b in
     mkWorld
       (set_buckets rotated
          (if (full && loose_eq (_state b) OPEN)%bool
           then set_state (Some HALF_OPEN) b else b))
       (if full then 0 else bucketIndex w + 1)
       (activations w) (trace w)).
Proof.
  destruct w as [[wd nb td et vt bs st fo] bi acts tr].
  unfold tick, isOpen, bind, gets, when, modify, ret. simpl.
  destruct (Z.of_nat (length bs) >? nb); simpl;
    destruct (bi + 1 >? nb); simpl; try reflexivity;
    destruct (loose_eq st OPEN); reflexivity.
Qed.

Lemma C_preserves_call_back (I : World -> Prop) (id : nat) (cs : list Callback) :
  (forall c, preserves (keeps I) (callback id c)) ->
  preserves (keeps I) (call_back id cs).
Proof.
  intros H. induction cs as [|c cs IH]; simpl.
  - apply preserves_ret.
  - apply preserves_bind; [apply H|intros _; exact IH].
Qed.

(** The methods of the callback variant, down to their assignments. *)
#[local] Hint Unfold step run _executeCommand _executeFallback callback
  increment increment_counter read_counter
  _updateState _calculateMetrics _lastBucket isOpen forceOpen forceClose
  unforce get_timeout set_timeout emit : C_methods.

Ltac C_methods := autounfold with C_methods.

Ltac C_preserve :=
  C_methods;
  repeat (preserve; try (apply C_preserves_call_back; intros []; C_methods)).

(** No action empties the array of buckets. *)
Lemma C_step_keeps_buckets (a : Action) :
  preserves (keeps (fun w => _buckets (this w) <> [])) (step a).
Proof.
  destruct a;
    [ | | | | intros w _; unfold exec; change (step interval_fires) with tick;
            rewrite C_tick_run; cbn [snd this]; cbv zeta;
            intros E; apply (f_equal length) in E; revert E;
            destruct (andb _ _); simpl; rewrite length_app; simpl; lia | | ];
    C_preserve; apply preserves_modify;
    intros [[wd nb td et vt bs st fo] bi acts tr]; simpl;
    first [ intros H; exact H
          | intros H E; apply H; apply (f_equal length) in E;
            rewrite length_alter in E; destruct bs; [reflexivity|discriminate] ].
Qed.







Lemma C_after_keeps_buckets (acts : list Action) (w : World) :
  _buckets (this w) <> [] -> _buckets (this (after acts w)) <> [].
Proof.
  revert w. induction acts as [|a acts IH]; intros w H; [exact H|].
  simpl. apply IH. apply (C_step_keeps_buckets a w H).
Qed.

(** From the constructor on, the array of buckets is never empty. *)
Lemma C_buckets_never_empty (acts : list Action) (opts : Options) :
  _buckets (this (after acts (new opts))) <> [].
Proof. apply C_after_keeps_buckets. discriminate. Qed.

End CallbackFacts.

(** ** The tests of the repository, replayed on the embedding *)

Section PromiseTests.
Import PromiseBreaker.

(** "should be false if errors are below the threshold", "should be true if
    errors are above the threshold": [errorThreshold = 75]. *)
Example P_test_threshold :
  let opts := mkOptions None None None (Some 75%float) None None in
  let fail := throws (JsString "fail") in
  let success := returns JsNull in
  eval isOpen (after (await_all 0 [fail; fail; fail; success]) (new opts)) = Normal false
  /\ eval isOpen (after (await_all 0 [fail; fail; fail; fail; fail; success]) (new opts))
     = Normal true.
Proof. split; vm_compute; reflexivity. Qed.

(** "should record a timeout if not a success or failure": the clock is moved
    three seconds before the reaction job can run, so the deadline comes
    first, between the second and the third tick, and the success is not
    counted. *)
Example P_test_timeout :
  map timeouts
    (_buckets (this (after [call_run (returns JsUndefined); interval_fires; interval_fires;
                            deadline_fires 0; interval_fires; reaction_job 0]
                       (new no_options))))
  = [0; 0; 1; 0]%N
  /\ map successes
       (_buckets (this (after [call_run (returns JsUndefined); interval_fires; interval_fires;
                               deadline_fires 0; interval_fires; reaction_job 0]
                          (new no_options))))
     = [0; 0; 0; 0]%N.
Proof. split; vm_compute; reflexivity. Qed.

(** "should call the onCircuitClosed method when the break is successfully
    reset": [volumeThreshold = 1], four failures, eleven ticks, a success. *)
Example P_test_logging :
  let opts := mkOptions None None None None (Some 1) None in
  let fail := throws (JsString "fail") in
  let w := after (await_all 0 [fail; fail; fail; fail] ++ replicate 11 interval_fires
                  ++ test_success 4) (new opts) in
  _state (this w) = Some CLOSED
  /\ last (trace w) = Some (onCircuitClose (mkMetrics 1 0 0)).
Proof. split; vm_compute; reflexivity. Qed.

(** "should recover from a force-closed circuit" and, of [forceOpen], "should
    not collect stats": the failures of commands that are not called are
    short circuits. *)
Example P_test_force :
  let fail := throws (JsString "fail") in
  let success := returns JsNull in
  eval isOpen (after (await_all 0 (replicate 6 fail) ++ [call_forceClose; call_unforce])
                 (new no_options)) = Normal true
  /\ _buckets (this (after (await_all 0 (replicate 6 success) ++ [call_forceOpen]
                            ++ map call_run (replicate 5 fail)) (new no_options)))
     = [mkBucket 0 6 0 0 5].
Proof. split; vm_compute; reflexivity. Qed.

End PromiseTests.

Section CallbackTests.
Import CallbackBreaker.

(** "should be false if errors are below the threshold", "should be true if
    errors are above the threshold": [errorThreshold = 75]. *)
Example C_test_threshold :
  let opts := mkOptions None None None (Some 75%float) None in
  eval isOpen (after (replicate 3 test_fail ++ [test_success]) (new opts)) = Normal false
  /\ eval isOpen (after (replicate 5 test_fail ++ [test_success]) (new opts)) = Normal true.
Proof. split; vm_compute; reflexivity. Qed.

(** "should maintain failed state after window has passed":
    [errorThreshold = 25], [volumeThreshold = 1], four failures, eleven
    ticks, a failure. *)
Example C_test_probe_fails :
  let opts := mkOptions None None None (Some 25%float) (Some 1) in
  eval isOpen (after (replicate 4 test_fail ++ replicate 11 interval_fires ++ [test_fail])
                 (new opts)) = Normal true.
Proof. vm_compute; reflexivity. Qed.

(** "should not record a success when there is a timeout". *)
Example C_test_timeout :
  map (fun b => (timeouts b, successes b))
    (_buckets (this (after [call_run (mkCommand [] None) None; interval_fires;
                            interval_fires; deadline_fires 0; interval_fires;
                            callback_called 0 success]
                       (new no_options))))
  = [(0, 0); (0, 0); (1, 0); (0, 0)]%N.
Proof. vm_compute; reflexivity. Qed.

End CallbackTests.

(** * The claims

    Names without a module are those of the promise variant; those of the
    callback variant are written with [Cb], short for [CallbackBreaker]. *)

Module Cb := CallbackBreaker.

Section Claims.
Import PromiseBreaker.

Lemma Sigma_ext {A} (f g : A -> N) (l l' : list A) :
  Forall2 (fun x y => f x = g y) l l' -> Sigma f l = Sigma g l'.
Proof.
  induction 1 as [|x y l l' Hxy _ IH]; simpl; [reflexivity|].
  rewrite Hxy, IH. reflexivity.
Qed.

Lemma P_specified_metrics_ext (bs bs' : list Bucket) :
  Forall2 same_outcomes bs bs' -> specified_metrics bs = specified_metrics bs'.
Proof.
  intros H. unfold specified_metrics.
  rewrite (Sigma_ext (fun b => successes b + failures b + timeouts b)%N
             (fun b => successes b + failures b + timeouts b)%N bs bs').
  2:{ eapply Forall2_impl; [exact H|]. intros x y (-> & -> & ->). reflexivity. }
  rewrite (Sigma_ext (fun b => failures b + timeouts b)%N
             (fun b => failures b + timeouts b)%N bs bs').
  2:{ eapply Forall2_impl; [exact H|]. intros x y (_ & -> & ->). reflexivity. }
  reflexivity.
Qed.

Lemma C_specified_metrics_ext (bs bs' : list Cb.Bucket) :
  Forall2 Cb.same_outcomes bs bs' ->
  Cb.specified_metrics bs = Cb.specified_metrics bs'.
Proof.
  intros H. unfold Cb.specified_metrics.
  rewrite (Sigma_ext
             (fun b => Cb.successes b + Cb.failures b
                       + Cb.timeouts b)%N
             (fun b => Cb.successes b + Cb.failures b
                       + Cb.timeouts b)%N bs bs').
  2:{ eapply Forall2_impl; [exact H|]. intros x y (-> & -> & ->). reflexivity. }
  rewrite (Sigma_ext
             (fun b => Cb.failures b + Cb.timeouts b)%N
             (fun b => Cb.failures b + Cb.timeouts b)%N bs bs').
  2:{ eapply Forall2_impl; [exact H|]. intros x y (_ & -> & ->). reflexivity. }
  reflexivity.
Qed.

(** C2.  In both variants [_calculateMetrics] returns, without an exception,
    the metrics that the specification words: [totalCount] is the sum of
    [successes + failures + timeouts] over the buckets, [errorCount] the sum
    of [failures + timeouts], [errorPercentage] is
    [errorCount / max(totalCount, 1) * 100]; it leaves the world (buckets,
    state, trace) as it found it; and two arrays of buckets that differ only
    in [ignores] and [shortCircuits] give the same metrics. *)
Theorem C2_calculateMetrics_sums :
  (forall w : World,
     _calculateMetrics w = (Normal (specified_metrics (_buckets (this w))), w))
  /\ (forall w w' : World,
        Forall2 same_outcomes (_buckets (this w)) (_buckets (this w')) ->
        eval _calculateMetrics w = eval _calculateMetrics w')
  /\ (forall w : Cb.World,
        Cb._calculateMetrics w
        = (Normal (Cb.specified_metrics
                     (Cb._buckets (Cb.this w))), w))
  /\ (forall w w' : Cb.World,
        Forall2 Cb.same_outcomes
          (Cb._buckets (Cb.this w))
          (Cb._buckets (Cb.this w')) ->
        eval Cb._calculateMetrics w = eval Cb._calculateMetrics w').
Proof.
  split; [exact P_calculateMetrics_run|].
  split.
  { intros w w' H. unfold eval. rewrite !P_calculateMetrics_run. simpl.
    f_equal. apply P_specified_metrics_ext, H. }
  split; [exact C_calculateMetrics_run|].
  intros w w' H. unfold eval. rewrite !C_calculateMetrics_run. simpl.
  f_equal. apply C_specified_metrics_ext, H.
Qed.

(** A world whose buckets hold ignored failures and short circuits next to
    the counted outcomes, and the same world without them. *)
Lemma C2_calculateMetrics_sums_witness :
  eval _calculateMetrics
    (on_this (set_buckets [mkBucket 2 3 1 7 9; mkBucket 0 1 0 4 0]) (new no_options))
  = eval _calculateMetrics
      (on_this (set_buckets [mkBucket 2 3 1 0 0; mkBucket 0 1 0 0 0]) (new no_options))
  /\ eval Cb._calculateMetrics
       (Cb.on_this
          (Cb.set_buckets [Cb.mkBucket 2 3 1 9])
          (Cb.new Cb.no_options))
     = eval Cb._calculateMetrics
         (Cb.on_this
            (Cb.set_buckets [Cb.mkBucket 2 3 1 0])
            (Cb.new Cb.no_options)).
Proof.
  split.
  - apply (proj1 (proj2 C2_calculateMetrics_sums)). simpl.
    repeat constructor.
  - apply (proj2 (proj2 (proj2 C2_calculateMetrics_sums))). simpl.
    repeat constructor.
Defined.

Lemma P_updateState_not_half_open (w : World) (m : Metrics) :
  _state (this w) <> Some HALF_OPEN ->
  eval _calculateMetrics w = Normal m ->
  let over :=
    volumeThreshold (this w) < Z.of_N (totalCount m)
    /\ PrimFloat.ltb (errorThreshold (this w)) (errorPercentage m) = true in
  eval _updateState w = Normal tt
  /\ ((_state (this (exec _updateState w)) = Some OPEN
       /\ trace (exec _updateState w) = trace w ++ [onCircuitOpen m])
      <-> over)
  /\ (over -> exec _updateState w = opened m w)
  /\ (~ over -> exec _updateState w = w).
Proof.
  intros Hs Hm over. apply loose_eq_false in Hs.
  unfold eval in Hm. rewrite P_calculateMetrics_run in Hm. simpl in Hm.
  injection Hm as Hm.
  unfold eval, exec. rewrite (P_updateState_run_else w Hs). rewrite Hm. cbn [fst snd].
  cbv zeta.
  assert (Hover : (Z.of_N (totalCount m) >? volumeThreshold (this w))
                  && PrimFloat.ltb (errorThreshold (this w)) (errorPercentage m) = true
                  <-> over).
  { unfold over. rewrite andb_true_iff, Z.gtb_lt. reflexivity. }
  destruct (_ && _)%bool.
  - assert (Ho : over) by (apply Hover; reflexivity).
    split; [reflexivity|]. split; [|split; [reflexivity|contradiction]].
    split; [intros _; exact Ho|intros _; split; reflexivity].
  - assert (Ho : ~ over) by (intros Ho; apply Hover in Ho; discriminate).
    split; [reflexivity|]. split; [|split; [contradiction|reflexivity]].
    split; [|contradiction].
    intros [_ Ht]. symmetry in Ht. exfalso. exact (app_singleton_neq _ _ Ht).
Qed.

Lemma C_updateState_not_half_open (w : Cb.World) (m : Metrics) :
  Cb._state (Cb.this w) <> Some HALF_OPEN ->
  eval Cb._calculateMetrics w = Normal m ->
  let over :=
    Cb.volumeThreshold (Cb.this w) < Z.of_N (totalCount m)
    /\ PrimFloat.ltb (Cb.errorThreshold (Cb.this w)) (errorPercentage m) = true in
  eval Cb._updateState w = Normal tt
  /\ ((Cb._state (Cb.this (exec Cb._updateState w)) = Some OPEN
       /\ Cb.trace (exec Cb._updateState w) = Cb.trace w ++ [Cb.onCircuitOpen m])
      <-> over)
  /\ (over -> exec Cb._updateState w = Cb.opened m w)
  /\ (~ over -> exec Cb._updateState w = w).
Proof.
  intros Hs Hm over. apply loose_eq_false in Hs.
  unfold eval in Hm. rewrite C_calculateMetrics_run in Hm. simpl in Hm.
  injection Hm as Hm.
  unfold eval, exec. rewrite (C_updateState_run_else w Hs). rewrite Hm. cbn [fst snd].
  cbv zeta.
  assert (Hover : (Z.of_N (totalCount m) >? Cb.volumeThreshold (Cb.this w))
                  && PrimFloat.ltb (Cb.errorThreshold (Cb.this w)) (errorPercentage m) = true
                  <-> over).
  { unfold over. rewrite andb_true_iff, Z.gtb_lt. reflexivity. }
  destruct (_ && _)%bool.
  - assert (Ho : over) by (apply Hover; reflexivity).
    split; [reflexivity|]. split; [|split; [reflexivity|contradiction]].
    split; [intros _; exact Ho|intros _; split; reflexivity].
  - assert (Ho : ~ over) by (intros Ho; apply Hover in Ho; discriminate).
    split; [reflexivity|]. split; [|split; [contradiction|reflexivity]].
    split; [|contradiction].
    intros [_ Ht]. symmetry in Ht. exfalso. exact (app_singleton_neq _ _ Ht).
Qed.

(** C1.  In both variants, on a breaker whose state is not [HALF_OPEN], the
    state evaluation returns normally, and it sets the state to [OPEN] and
    calls [onCircuitOpen] with the metrics exactly when
    [totalCount > volumeThreshold] and [errorPercentage > errorThreshold],
    both strict, over all the buckets; otherwise it changes nothing.  With no
    forced state, a recorded outcome is counted in the active bucket and that
    evaluation runs right after.  For [new CircuitBreaker()] (thresholds 50
    and 5), [isOpen()] is true after six failures in a row and false after
    five. *)
Theorem C1_opens_iff_over_both_thresholds :
  (forall (w : World) (m : Metrics),
     _state (this w) <> Some HALF_OPEN ->
     eval _calculateMetrics w = Normal m ->
     let over :=
       volumeThreshold (this w) < Z.of_N (totalCount m)
       /\ PrimFloat.ltb (errorThreshold (this w)) (errorPercentage m) = true in
     eval _updateState w = Normal tt
     /\ ((_state (this (exec _updateState w)) = Some OPEN
          /\ trace (exec _updateState w) = trace w ++ [onCircuitOpen m])
         <-> over)
     /\ (over -> exec _updateState w = opened m w)
     /\ (~ over -> exec _updateState w = w))
  /\ (forall (w : World) (id : nat) (prop : Counter) (older : list Bucket) (active : Bucket),
        _forced (this w) = None ->
        _buckets (this w) = older ++ [active] ->
        exec (increment id prop) w
        = exec (set_timeout id None)
            (exec _updateState (on_this (set_buckets (older ++ [bump prop active])) w)))
  /\ (forall (w : Cb.World) (m : Metrics),
        Cb._state (Cb.this w) <> Some HALF_OPEN ->
        eval Cb._calculateMetrics w = Normal m ->
        let over :=
          Cb.volumeThreshold (Cb.this w) < Z.of_N (totalCount m)
          /\ PrimFloat.ltb (Cb.errorThreshold (Cb.this w))
               (errorPercentage m) = true in
        eval Cb._updateState w = Normal tt
        /\ ((Cb._state (Cb.this (exec Cb._updateState w))
             = Some OPEN
             /\ Cb.trace (exec Cb._updateState w)
                = Cb.trace w ++ [Cb.onCircuitOpen m])
            <-> over)
        /\ (over -> exec Cb._updateState w = Cb.opened m w)
        /\ (~ over -> exec Cb._updateState w = w))
  /\ (forall (w : Cb.World) (id : nat) (prop : Cb.Counter)
         (older : list Cb.Bucket) (active : Cb.Bucket),
        Cb._forced (Cb.this w) = None ->
        Cb.racing id w ->
        Cb._buckets (Cb.this w) = older ++ [active] ->
        exec (Cb.increment id prop) w
        = exec (Cb.set_timeout id None)
            (exec Cb._updateState
               (Cb.on_this
                  (Cb.set_buckets (older ++ [Cb.bump prop active]))
                  w)))
  /\ eval isOpen (after (flat_map test_fail (seq 0 6)) (new no_options)) = Normal true
  /\ eval isOpen (after (flat_map test_fail (seq 0 5)) (new no_options)) = Normal false
  /\ eval Cb.isOpen
       (Cb.after (replicate 6 Cb.test_fail)
          (Cb.new Cb.no_options)) = Normal true
  /\ eval Cb.isOpen
       (Cb.after (replicate 5 Cb.test_fail)
          (Cb.new Cb.no_options)) = Normal false.
Proof.
  split; [exact P_updateState_not_half_open|].
  split.
  { intros w id prop older active Hf Hb. unfold exec at 1.
    rewrite (P_increment_run w id prop older active Hb). rewrite Hf. reflexivity. }
  split; [exact C_updateState_not_half_open|].
  split.
  { intros w id prop older active Hf Hr Hb. unfold exec at 1.
    rewrite (C_increment_racing w id prop older active Hr Hb). rewrite Hf. reflexivity. }
  repeat split; vm_compute; reflexivity.
Qed.

(** Six failures counted in the only bucket of a new breaker, seen by the
    state evaluation; and the first failure of a new breaker, recorded. *)
Lemma C1_opens_iff_over_both_thresholds_witness :
  (let w := on_this (set_buckets [mkBucket 6 0 0 0 0]) (new no_options) in
   exec _updateState w = opened (mkMetrics 6 6 100) w)
  /\ (let w := after [call_run (throws (JsString "fail"))] (new no_options) in
      exec (increment 0 c_failures) w
      = exec (set_timeout 0 None)
          (exec _updateState (on_this (set_buckets ([] ++ [bump c_failures _createBucket])) w)))
  /\ (let w :=
        Cb.on_this
          (Cb.set_buckets [Cb.mkBucket 6 0 0 0])
          (Cb.new Cb.no_options) in
      exec Cb._updateState w = Cb.opened (mkMetrics 6 6 100) w)
  /\ (let w :=
        Cb.after
          [Cb.call_run (Cb.mkCommand [] None) None]
          (Cb.new Cb.no_options) in
      exec (Cb.increment 0 Cb.c_failures) w
      = exec (Cb.set_timeout 0 None)
          (exec Cb._updateState
             (Cb.on_this
                (Cb.set_buckets
                   ([] ++ [Cb.bump Cb.c_failures
                             Cb._createBucket]))
                w))).
Proof.
  destruct C1_opens_iff_over_both_thresholds as (H1 & H2 & H3 & H4 & _).
  split; [|split; [|split]].
  - intros w.
    assert (Hs : _state (this w) <> Some HALF_OPEN) by (vm_compute; discriminate).
    assert (Hm : eval _calculateMetrics w = Normal (mkMetrics 6 6 100))
      by (vm_compute; reflexivity).
    apply (proj1 (proj2 (proj2 (H1 w _ Hs Hm)))).
    split; vm_compute; reflexivity.
  - intros w. apply (H2 w 0%nat c_failures [] _createBucket); vm_compute; reflexivity.
  - intros w.
    assert (Hs : Cb._state (Cb.this w) <> Some HALF_OPEN)
      by (vm_compute; discriminate).
    assert (Hm : eval Cb._calculateMetrics w = Normal (mkMetrics 6 6 100))
      by (vm_compute; reflexivity).
    apply (proj1 (proj2 (proj2 (H3 w _ Hs Hm)))).
    split; vm_compute; reflexivity.
  - intros w.
    apply (H4 w 0%nat Cb.c_failures [] Cb._createBucket).
    + vm_compute; reflexivity.
    + eexists. split; vm_compute; reflexivity.
    + vm_compute; reflexivity.
Defined.

Lemma P_updateState_half_open (w : World) (m : Metrics) (older : list Bucket) (active : Bucket) :
  _state (this w) = Some HALF_OPEN ->
  _buckets (this w) = older ++ [active] ->
  eval _calculateMetrics w = Normal m ->
  eval _updateState w = Normal tt
  /\ ((_state (this (exec _updateState w)) = Some CLOSED
       /\ trace (exec _updateState w) = trace w ++ [onCircuitClose m])
      <-> (1 <= successes active \/ errorCount m = 0)%N)
  /\ ((successes active = 0 /\ 0 < errorCount m)%N ->
      _state (this (exec _updateState w)) = Some OPEN).
Proof.
  intros Hs Hb Hm. apply loose_eq_true in Hs.
  unfold eval in Hm. rewrite P_calculateMetrics_run in Hm. simpl in Hm.
  injection Hm as Hm.
  unfold eval, exec. rewrite (P_updateState_run_half_open w older active Hs Hb).
  rewrite Hm. cbn [fst snd]. cbv zeta.
  destruct (N.eqb_spec (successes active) 0) as [E1|E1];
    destruct (N.ltb_spec 0 (errorCount m)) as [E2|E2];
    cbn [andb]; (split; [reflexivity|]); split;
    first [ split; [intros [Hc _]; discriminate Hc | lia]
          | split; [intros _; lia | intros _; split; reflexivity]
          | intros _; reflexivity
          | intros; lia ].
Qed.

Lemma C_updateState_half_open (w : Cb.World) (m : Metrics)
    (older : list Cb.Bucket) (active : Cb.Bucket) :
  Cb._state (Cb.this w) = Some HALF_OPEN ->
  Cb._buckets (Cb.this w) = older ++ [active] ->
  eval Cb._calculateMetrics w = Normal m ->
  eval Cb._updateState w = Normal tt
  /\ ((Cb._state (Cb.this (exec Cb._updateState w)) = Some CLOSED
       /\ Cb.trace (exec Cb._updateState w) = Cb.trace w ++ [Cb.onCircuitClose m])
      <-> (1 <= Cb.successes active \/ errorCount m = 0)%N)
  /\ ((Cb.successes active = 0 /\ 0 < errorCount m)%N ->
      Cb._state (Cb.this (exec Cb._updateState w)) = Some OPEN).
Proof.
  intros Hs Hb Hm. apply loose_eq_true in Hs.
  unfold eval in Hm. rewrite C_calculateMetrics_run in Hm. simpl in Hm.
  injection Hm as Hm.
  unfold eval, exec. rewrite (C_updateState_run_half_open w older active Hs Hb).
  rewrite Hm. cbn [fst snd]. cbv zeta.
  destruct (N.eqb_spec (Cb.successes active) 0) as [E1|E1];
    destruct (N.ltb_spec 0 (errorCount m)) as [E2|E2];
    cbn [andb]; (split; [reflexivity|]); split;
    first [ split; [intros [Hc _]; discriminate Hc | lia]
          | split; [intros _; lia | intros _; split; reflexivity]
          | intros _; reflexivity
          | intros; lia ].
Qed.

(** C3 as stated fails.  Six failures open the circuit, a tick makes it
    half-open with those failures still in the window, and the probe
    succeeds: the state evaluation closes the circuit and tells
    [onCircuitClose], although the window holds six errors. *)
Lemma C3_probe_closes_with_errors_in_window :
  let w := counted (bump c_successes) (after probe_history (new no_options)) in
  _state (this w) = Some HALF_OPEN
  /\ _forced (this w) = None
  /\ _state (this (exec _updateState w)) = Some CLOSED
  /\ eval _calculateMetrics w = Normal (mkMetrics 7 6 (number_of_N 6 / number_of_N 7 * 100))
  /\ ~ closes_iff_success_and_no_error w.
Proof.
  intros w. repeat split; try (vm_compute; reflexivity).
  intros H.
  specialize (H (mkMetrics 7 6 (number_of_N 6 / number_of_N 7 * 100)) (mkBucket 0 1 0 0 0)).
  destruct H as [H _]; [vm_compute; reflexivity|vm_compute; reflexivity|].
  destruct H as [_ H]; [split; vm_compute; reflexivity|].
  discriminate H.
Qed.

(** C3, amended.  In both variants, on a breaker whose state is [HALF_OPEN],
    the state evaluation sets the state to [CLOSED] and calls
    [onCircuitClose] with the metrics exactly when the active bucket has a
    success or the window has no error; when the active bucket has no success
    and the window has an error it sets the state to [OPEN]. *)
Theorem C3_probe_closes_unless_it_failed :
  (forall (w : World) (m : Metrics) (older : list Bucket) (active : Bucket),
     _state (this w) = Some HALF_OPEN ->
     _buckets (this w) = older ++ [active] ->
     eval _calculateMetrics w = Normal m ->
     eval _updateState w = Normal tt
     /\ ((_state (this (exec _updateState w)) = Some CLOSED
          /\ trace (exec _updateState w) = trace w ++ [onCircuitClose m])
         <-> (1 <= successes active \/ errorCount m = 0)%N)
     /\ ((successes active = 0 /\ 0 < errorCount m)%N ->
         _state (this (exec _updateState w)) = Some OPEN))
  /\ (forall (w : Cb.World) (m : Metrics)
         (older : list Cb.Bucket) (active : Cb.Bucket),
        Cb._state (Cb.this w) = Some HALF_OPEN ->
        Cb._buckets (Cb.this w) = older ++ [active] ->
        eval Cb._calculateMetrics w = Normal m ->
        eval Cb._updateState w = Normal tt
        /\ ((Cb._state (Cb.this (exec Cb._updateState w))
             = Some CLOSED
             /\ Cb.trace (exec Cb._updateState w)
                = Cb.trace w ++ [Cb.onCircuitClose m])
            <-> (1 <= Cb.successes active \/ errorCount m = 0)%N)
        /\ ((Cb.successes active = 0 /\ 0 < errorCount m)%N ->
            Cb._state (Cb.this (exec Cb._updateState w))
            = Some OPEN)).
Proof.
  split; [exact P_updateState_half_open|exact C_updateState_half_open].
Qed.

(** A half-open breaker whose probe failed, in each variant. *)
Lemma C3_probe_closes_unless_it_failed_witness :
  _state (this (exec _updateState
     (mkWorld (mkCircuitBreaker 10000 10 3000 50 5 (fun _ => true)
                 [mkBucket 6 0 0 0 0; mkBucket 1 0 0 0 0] (Some HALF_OPEN) None)
        0 [] []))) = Some OPEN
  /\ Cb._state (Cb.this (exec Cb._updateState
       (Cb.mkWorld
          (Cb.mkCircuitBreaker 10000 10 3000 50 5
             [Cb.mkBucket 6 0 0 0; Cb.mkBucket 1 0 0 0]
             (Some HALF_OPEN) None)
          0 [] []))) = Some OPEN.
Proof.
  destruct C3_probe_closes_unless_it_failed as (H1 & H2).
  split.
  - refine (proj2 (proj2 (H1 _ (mkMetrics 7 7 100) [mkBucket 6 0 0 0 0] (mkBucket 1 0 0 0 0)
                            _ _ _)) _);
      try (vm_compute; reflexivity).
    split; vm_compute; reflexivity.
  - refine (proj2 (proj2 (H2 _ (mkMetrics 7 7 100) [Cb.mkBucket 6 0 0 0]
                            (Cb.mkBucket 1 0 0 0) _ _ _)) _);
      try (vm_compute; reflexivity).
    split; vm_compute; reflexivity.
Defined.

Lemma P_reaction_job_run (w : World) (id : nat) :
  step (reaction_job id) w
  = match wrapped <$> activations w !! id with
    | Some (Fulfilled result) => on_fulfilled id result w
    | Some (Rejected reason) => on_rejected id reason w
    | _ => (Normal tt, w)
    end.
Proof.
  simpl. unfold bind at 1. unfold gets at 1.
  destruct (wrapped <$> activations w !! id) as [[|result|reason]|]; reflexivity.
Qed.



Lemma C_call_back_decided (w : Cb.World) (id : nat)
    (cs : list Cb.Callback) :
  Cb.decided id w -> Cb.call_back id cs w = (Normal tt, w).
Proof.
  intros H. induction cs as [|c cs IH]; simpl; [reflexivity|].
  unfold bind. unfold Cb.callback.
  destruct c; rewrite C_increment_decided by exact H; exact IH.
Qed.

(** Of the calls that a command makes before it returns, the first one
    decides. *)
Lemma C_call_back_first (w : Cb.World) (id : nat)
    (c : Cb.Callback) (cs : list Cb.Callback) :
  Cb.racing id w ->
  Cb._buckets (Cb.this w) <> [] ->
  Cb.call_back id (c :: cs) w = Cb.call_back id [c] w.
Proof.
  intros Hr Hb. simpl. unfold bind.
  pose proof (C_increment_decides w id
                (match c with
                 | Cb.success => Cb.c_successes
                 | Cb.failed => Cb.c_failures
                 end) Hr Hb) as Hd.
  destruct (nonempty_snoc _ Hb) as (older & active & Hs).
  unfold exec in Hd. unfold Cb.callback.
  destruct c; rewrite (C_increment_racing w id _ older active Hr Hs) in *;
    cbn [snd] in Hd; rewrite (C_call_back_decided _ id cs Hd); reflexivity.
Qed.

Lemma C_isOpen_run (w : Cb.World) :
  Cb.isOpen w
  = (Normal (loose_eq (Cb._state (Cb.this w)) OPEN), w).
Proof. reflexivity. Qed.

Lemma C_run_run (w : Cb.World) (command : Cb.Command)
    (fallback : option Cb.Fallback) :
  Cb.run command fallback w
  = if loose_eq (Cb._state (Cb.this w)) OPEN
    then Cb._executeFallback fallback w
    else Cb._executeCommand command w.
Proof.
  unfold Cb.run. unfold bind at 1. rewrite C_isOpen_run.
  destruct (loose_eq _ OPEN); reflexivity.
Qed.

(** [_executeCommand] makes a new activation with its timer armed, calls the
    command, which calls back and then returns or throws. *)
Lemma C_executeCommand_run (w : Cb.World) (command : Cb.Command) :
  Cb._executeCommand command w
  = let id := length (Cb.activations w) in
    let w1 :=
      Cb.mkWorld (Cb.this w) (Cb.bucketIndex w)
        (Cb.activations w ++ [Cb.mkActivation (Some (S id))])
        (Cb.trace w ++ [Cb.command_called id]) in
    match Cb.call_back id (Cb.calls command) w1 with
    | (Normal _, w2) =>
        match Cb.thrown command with
        | Some e => (Throw e, w2)
        | None => (Normal tt, w2)
        end
    | (Throw e, w2) => (Throw e, w2)
    end.
Proof.
  unfold Cb._executeCommand, Cb.emit, bind, gets, modify.
  cbn [Cb.on_activations Cb.this Cb.bucketIndex
       Cb.activations Cb.trace].
  destruct (Cb.call_back _ _ _) as [[[]|e] w2];
    destruct (Cb.thrown command); reflexivity.
Qed.

Lemma P_isOpen_run (w : World) :
  isOpen w = (Normal (loose_eq (_state (this w)) OPEN), w).
Proof. reflexivity. Qed.



(** [run] on an open circuit counts a short circuit and rejects; on another
    it makes a new activation, with the command called and its timer
    armed. *)
Lemma P_run_run (w : World) (command : Command) :
  run command w
  = if loose_eq (_state (this w)) OPEN
    then match _incrementShortCircuits w with
         | (Normal _, w') => (Normal (settled_promise (Rejected CircuitOpenError)), w')
         | (Throw e, w') => (Normal (settled_promise (Rejected e)), w')
         end
    else let id := length (activations w) in
         (Normal (activation_promise id),
          mkWorld (this w) (bucketIndex w)
            (activations w ++ [mkActivation (Some (S id)) (wrapPromise command) Pending])
            (trace w ++ [command_called id])).
Proof.
  unfold run, async. unfold bind at 1. rewrite P_isOpen_run.
  destruct (loose_eq _ OPEN).
  - unfold bind at 1. destruct (_incrementShortCircuits w) as [[[]|e] w']; reflexivity.
  - reflexivity.
Qed.

Lemma P_incrementShortCircuits_run (w : World) (older : list Bucket) (active : Bucket) :
  _buckets (this w) = older ++ [active] ->
  _incrementShortCircuits w
  = (Normal tt, on_this (set_buckets (older ++ [bump_shortCircuits active])) w).
Proof.
  intros Hb. unfold _incrementShortCircuits.
  erewrite exec_bind; cycle 1.
  { unfold _lastBucket, bind, gets, ret. rewrite Hb, array_ref_last. reflexivity. }
  unfold increment_counter, modify. unfold on_this at 1. rewrite Hb, alter_last.
  reflexivity.
Qed.












Lemma alter_out_of_range {A} (f : A -> A) (l : list A) :
  alter f (length l) l = l.
Proof.
  induction l as [|x l IH]; simpl; [reflexivity|]. f_equal. exact IH.
Qed.

Lemma P_incrementShortCircuits_activations (w : World) :
  activations (exec _incrementShortCircuits w) = activations w.
Proof.
  destruct (_buckets (this w)) as [|b bs] eqn:Hb.
  - unfold exec, _incrementShortCircuits, _lastBucket, bind, gets, ret.
    rewrite Hb. reflexivity.
  - destruct (nonempty_snoc (b :: bs)) as (older & active & Hs); [discriminate|].
    rewrite Hs in Hb. unfold exec.
    rewrite (P_incrementShortCircuits_run w older active Hb). reflexivity.
Qed.

Lemma P_increment_throws (w : World) (id : nat) (prop : Counter) :
  _buckets (this w) = [] -> increment id prop w = (Throw TypeError, w).
Proof.
  intros Hb. unfold increment, _lastBucket, bind, gets, ret. rewrite Hb. reflexivity.
Qed.

Lemma P_increment_activations (w : World) (id : nat) (prop : Counter) (p : PromiseState) :
  _buckets (this w) <> [] ->
  activations (exec (settle id p) (exec (increment id prop) w))
  = alter (fun a => match returned a with
                    | Pending => mkActivation (timeout a) (wrapped a) p
                    | _ => a
                    end) id
      (alter (fun a => mkActivation None (wrapped a) (returned a)) id (activations w)).
Proof.
  intros Hb. destruct (nonempty_snoc _ Hb) as (older & active & Hs).
  unfold exec at 2. rewrite (P_increment_run w id prop older active Hs).
  cbn [snd]. set (w1 := on_this _ w).
  assert (Hact : activations (exec (when (is_null (_forced (this w))) _updateState) w1)
                 = activations w).
  { destruct (is_null _); simpl; [rewrite P_updateState_activations|]; reflexivity. }
  set (w2 := exec (when _ _) w1) in *.
  unfold settle, set_timeout, exec, modify, on_activations. cbn [snd activations].
  rewrite Hact. reflexivity.
Qed.

Lemma P_increment_keeps_pending (w : World) (id : nat) (prop : Counter) (p : PromiseState) :
  _buckets (this w) <> [] ->
  racing_is_pending w ->
  racing_is_pending (exec (settle id p) (exec (increment id prop) w)).
Proof.
  intros Hb H j x. rewrite (P_increment_activations w id prop p Hb).
  destruct (decide (id = j)) as [->|Hne].
  - rewrite !list_lookup_alter_eq. destruct (activations w !! j) as [y|]; [|discriminate].
    simpl. destruct (returned y); intros Hx; injection Hx as <-; discriminate.
  - rewrite !list_lookup_alter_ne by exact Hne. apply H.
Qed.

Lemma P_callback_keeps_pending (w : World) (id : nat) (m : M World unit)
    (prop : Counter) (p : PromiseState) :
  m = (t <- get_timeout id ;;
       if no_handle t then ret tt else increment id prop ;; settle id p)%js ->
  racing_is_pending w -> racing_is_pending (exec m w).
Proof.
  intros -> H. unfold exec. unfold bind at 1. unfold get_timeout, gets.
  destruct (no_handle _); [exact H|].
  destruct (_buckets (this w)) as [|b bs] eqn:Hb.
  - unfold bind. rewrite (P_increment_throws w id prop Hb). exact H.
  - assert (Hne : _buckets (this w) <> []) by (rewrite Hb; discriminate).
    pose proof (P_increment_keeps_pending w id prop p Hne H) as K.
    destruct (nonempty_snoc _ Hne) as (older & active & Hs).
    unfold exec in K. unfold bind.
    rewrite (P_increment_run w id prop older active Hs) in *. exact K.
Qed.

Lemma P_on_rejected_unfold (w : World) (id : nat) (reason : JsValue) :
  on_rejected id reason w
  = (t <- get_timeout id ;;
     if no_handle t then ret tt
     else increment id (if circuitFilter (this w) reason then c_failures else c_ignores) ;;
          settle id (Rejected reason))%js w.
Proof.
  unfold on_rejected. unfold bind at 1 4. unfold get_timeout, gets.
  destruct (no_handle _); [reflexivity|].
  unfold bind at 1. destruct (circuitFilter (this w) reason); reflexivity.
Qed.

Lemma P_step_keeps_pending (a : Action) :
  preserves (keeps racing_is_pending) (step a).
Proof.
  destruct a as [command| | | | |id|id p|id].
  - intros w H. unfold exec. change (step (call_run command) w) with
      (bind (run command) (fun _ => ret tt) w). unfold bind. rewrite P_run_run.
    destruct (loose_eq _ OPEN).
    + pose proof (P_incrementShortCircuits_activations w) as Ha. unfold exec in Ha.
      destruct (_incrementShortCircuits w) as [[[]|e] w']; simpl in *;
        intros j x; rewrite Ha; apply H.
    + simpl. intros j x Hx Hn. apply lookup_app_Some in Hx.
      destruct Hx as [Hx|[_ Hx]]; [exact (H j x Hx Hn)|].
      apply list_lookup_singleton_Some in Hx. destruct Hx as [_ <-]. reflexivity.
  - intros w H. exact H.
  - intros w H. exact H.
  - intros w H. exact H.
  - intros w H. unfold exec. change (step interval_fires) with tick.
    rewrite P_tick_run. exact H.
  - intros w H. apply (P_callback_keeps_pending w id _ c_timeouts
                         (Rejected CircuitWorkerTimeout)); [reflexivity|exact H].
  - intros w H j x. simpl. destruct (decide (id = j)) as [->|Hne].
    + rewrite list_lookup_alter_eq. destruct (activations w !! j) as [y|] eqn:Hy;
        [|discriminate].
      simpl. pose proof (H j y Hy) as Hy'.
      destruct (wrapped y); intros Hx; injection Hx as <-; exact Hy'.
    + rewrite list_lookup_alter_ne by exact Hne. apply H.
  - intros w H. unfold exec. rewrite P_reaction_job_run.
    destruct (wrapped <$> activations w !! id) as [[|result|reason]|]; try exact H.
    + apply (P_callback_keeps_pending w id _ c_successes (Fulfilled result));
        [reflexivity|exact H].
    + rewrite P_on_rejected_unfold.
      apply (P_callback_keeps_pending w id _
               (if circuitFilter (this w) reason then c_failures else c_ignores)
               (Rejected reason)); [reflexivity|exact H].
Qed.

(** From the constructor on, the promise returned by an activation whose
    race is open is pending. *)
Lemma P_racing_is_pending (acts : list Action) (opts : Options) :
  racing_is_pending (after acts (new opts)).
Proof.
  assert (H : forall w, racing_is_pending w -> racing_is_pending (after acts w)).
  { induction acts as [|a acts IH]; intros w Hw; [exact Hw|].
    simpl. apply IH. apply (P_step_keeps_pending a w Hw). }
  apply H. intros j y Hy. discriminate Hy.
Qed.

Lemma P_updateState_buckets (w : World) :
  _buckets (this (exec _updateState w)) = _buckets (this w).
Proof.
  destruct (P_updateState_cases w) as [H|(m & [H|H])]; rewrite H; reflexivity.
Qed.

(** What a rejection that wins its race leaves: one more in the counter that
    the filter chooses, and the promise rejected with the reason. *)
Lemma P_on_rejected_effect (w : World) (id : nat) (reason : JsValue) (a : Activation)
    (older : list Bucket) (active : Bucket) :
  activations w !! id = Some a ->
  no_handle (timeout a) = false ->
  returned a = Pending ->
  _buckets (this w) = older ++ [active] ->
  eval (on_rejected id reason) w = Normal tt
  /\ _buckets (this (exec (on_rejected id reason) w))
     = older ++ [bump (if circuitFilter (this w) reason then c_failures else c_ignores) active]
  /\ activations (exec (on_rejected id reason) w) !! id
     = Some (mkActivation None (wrapped a) (Rejected reason)).
Proof.
  intros Ha Hn Hp Hb.
  assert (Hr : racing id w) by (exists a; split; assumption).
  assert (Hne : _buckets (this w) <> []) by (rewrite Hb; destruct older; discriminate).
  pose proof (P_on_rejected_racing w id reason Hr Hne) as E.
  unfold eval, exec. rewrite E. cbn [fst snd]. clear E.
  split; [reflexivity|].
  set (prop := if circuitFilter (this w) reason then c_failures else c_ignores).
  pose proof (P_increment_run w id prop older active Hb) as E.
  unfold exec at 2 4. rewrite E. cbn [snd]. clear E.
  set (w1 := on_this _ w).
  set (w2 := exec (when _ _) w1).
  assert (Hb2 : _buckets (this w2) = older ++ [bump prop active]).
  { subst w2. destruct (is_null _); simpl; [rewrite P_updateState_buckets|]; reflexivity. }
  assert (Ha2 : activations w2 = activations w).
  { subst w2. destruct (is_null _); simpl; [rewrite P_updateState_activations|]; reflexivity. }
  split; [exact Hb2|].
  unfold settle, set_timeout, exec, modify, on_activations. cbn [snd activations].
  rewrite Ha2, !list_lookup_alter_eq, Ha. simpl. rewrite Hp. reflexivity.
Qed.

(** C8.  In the promise variant, when the command's promise is rejected
    while the race of its activation is open, the reason is given to
    [circuitFilter]: if it answers false, [ignores] of the active bucket gets
    one more and the metrics (hence [totalCount] and [errorPercentage]) are
    what they were; otherwise [failures] gets one more.  In both cases the
    promise that [run] returned is rejected with that very reason.  (That
    this promise is pending while the race is open, and that there is an
    active bucket, hold from the constructor on: [P_racing_is_pending],
    [P_buckets_never_empty].) *)
Theorem C8_filtered_failure_is_ignored :
  forall (w : World) (id : nat) (reason : JsValue) (a : Activation)
    (older : list Bucket) (active : Bucket),
    activations w !! id = Some a ->
    no_handle (timeout a) = false ->
    returned a = Pending ->
    _buckets (this w) = older ++ [active] ->
    eval (on_rejected id reason) w = Normal tt
    /\ (circuitFilter (this w) reason = false ->
        _buckets (this (exec (on_rejected id reason) w))
        = older ++ [mkBucket (failures active) (successes active) (timeouts active)
                      (ignores active + 1) (shortCircuits active)]
        /\ eval _calculateMetrics (exec (on_rejected id reason) w)
           = eval _calculateMetrics w)
    /\ (circuitFilter (this w) reason = true ->
        _buckets (this (exec (on_rejected id reason) w))
        = older ++ [mkBucket (failures active + 1) (successes active) (timeouts active)
                      (ignores active) (shortCircuits active)])
    /\ returned <$> activations (exec (on_rejected id reason) w) !! id
       = Some (Rejected reason).
Proof.
  intros w id reason a older active Ha Hn Hp Hb.
  destruct (P_on_rejected_effect w id reason a older active Ha Hn Hp Hb) as (H1 & H2 & H3).
  split; [exact H1|]. split; [|split].
  - intros Hf. rewrite Hf in H2. split; [exact H2|].
    unfold eval. rewrite !P_calculateMetrics_run. cbn [fst]. f_equal.
    rewrite H2, Hb. apply P_specified_metrics_ext.
    apply Forall2_app; [apply Forall2_same_length_lookup_2; [reflexivity|]|].
    + intros i x y Hx Hy. rewrite Hx in Hy. injection Hy as <-. repeat split.
    + repeat constructor.
  - intros Hf. rewrite Hf in H2. exact H2.
  - rewrite H3. reflexivity.
Qed.

(** A new breaker whose filter ignores the string ["fail"], and a run whose
    command throws it. *)
Lemma C8_filtered_failure_is_ignored_witness :
  let w :=
    after [call_run (throws (JsString "fail"))]
      (new (mkOptions None None None None None
              (Some (fun e => match e with JsString _ => false | _ => true end)))) in
  returned <$> activations (exec (on_rejected 0 (JsString "fail")) w) !! 0%nat
  = Some (Rejected (JsString "fail"))
  /\ _buckets (this (exec (on_rejected 0 (JsString "fail")) w)) = [mkBucket 0 0 0 1 0].
Proof.
  intros w.
  destruct (C8_filtered_failure_is_ignored w 0%nat (JsString "fail")
              (mkActivation (Some 1%nat) (Rejected (JsString "fail")) Pending)
              [] _createBucket) as (_ & H1 & _ & H2); try reflexivity.
  split; [exact H2|]. apply H1. reflexivity.
Defined.

(** C9 as stated fails in the callback variant: [_executeCommand] calls the
    command with no handler around the call.  A command that throws makes
    [run] throw; no failure is counted, and the timer of the activation stays
    armed. *)
Lemma C9_callback_command_throw_escapes :
  let w := Cb.new Cb.no_options in
  let command := Cb.mkCommand [] (Some (JsString "fail")) in
  eval (Cb.run command None) w = Throw (JsString "fail")
  /\ Cb._buckets (Cb.this (exec (Cb.run command None) w))
     = [Cb.mkBucket 0 0 0 0]
  /\ Cb.activations (exec (Cb.run command None) w)
     = [Cb.mkActivation (Some 1%nat)].
Proof.
  repeat split; reflexivity.
Qed.

(** C9, amended.  In the promise variant a command that throws when it is
    called is turned by [wrapPromise] into a rejected promise.  [run] never
    throws, whatever the command does: it returns a promise.  A command that
    throws [e] leaves the same world as a command that returns a promise
    already rejected with [e], and the same world as a command that returns
    a pending promise which is then rejected with [e].  On a circuit that is
    not open the reaction job then counts the failure, in [failures] or in
    [ignores] as [circuitFilter] says, and rejects with [e] the promise that
    [run] returned. *)
Theorem C9_promise_command_throw_is_rejection :
  (forall (w : World) (command : Command), exists p, eval (run command) w = Normal p)
  /\ (forall (w : World) (e : JsValue),
        run (throws e) w = run (returns_promise (Rejected e)) w)
  /\ (forall (w : World) (e : JsValue),
        exec (run (throws e)) w
        = after [call_run (returns_promise Pending);
                 command_settles (length (activations w)) (Rejected e)] w)
  /\ (forall (w : World) (e : JsValue) (older : list Bucket) (active : Bucket),
        eval isOpen w = Normal false ->
        _buckets (this w) = older ++ [active] ->
        let id := length (activations w) in
        let w1 := exec (run (throws e)) w in
        eval (run (throws e)) w = Normal (activation_promise id)
        /\ eval (step (reaction_job id)) w1 = Normal tt
        /\ _buckets (this (exec (step (reaction_job id)) w1))
           = older ++ [bump (if circuitFilter (this w) e then c_failures else c_ignores) active]
        /\ returned <$> activations (exec (step (reaction_job id)) w1) !! id
           = Some (Rejected e)).
Proof.
  split.
  { intros w command. unfold eval. rewrite P_run_run.
    destruct (loose_eq _ OPEN); [|eexists; reflexivity].
    destruct (_incrementShortCircuits w) as [[[]|e] w']; eexists; reflexivity. }
  split; [reflexivity|].
  split.
  { intros w e. simpl. unfold exec at 3. unfold bind at 1.
    unfold exec. rewrite !P_run_run.
    destruct (loose_eq _ OPEN).
    - pose proof (P_incrementShortCircuits_activations w) as Ha. unfold exec in Ha.
      destruct (_incrementShortCircuits w) as [[[]|e'] [b i acts tr]];
        simpl in *; subst acts; unfold on_activations; simpl;
        rewrite alter_out_of_range; reflexivity.
    - cbv zeta. simpl. unfold on_activations. simpl.
      rewrite alter_last. reflexivity. }
  intros w e older active Ho Hb id w1.
  unfold eval in Ho. rewrite P_isOpen_run in Ho. simpl in Ho. injection Ho as Ho.
  assert (Hw1 : run (throws e) w
                = (Normal (activation_promise id),
                   mkWorld (this w) (bucketIndex w)
                     (activations w ++ [mkActivation (Some (S id)) (Rejected e) Pending])
                     (trace w ++ [command_called id]))).
  { rewrite P_run_run, Ho. reflexivity. }
  unfold eval at 1. rewrite Hw1. split; [reflexivity|].
  assert (E : w1 = mkWorld (this w) (bucketIndex w)
                     (activations w ++ [mkActivation (Some (S id)) (Rejected e) Pending])
                     (trace w ++ [command_called id])).
  { subst w1. unfold exec. rewrite Hw1. reflexivity. }
  clearbody w1. subst w1.
  set (w1 := mkWorld _ _ _ _).
  assert (Ha : activations w1 !! id = Some (mkActivation (Some (S id)) (Rejected e) Pending))
    by apply lookup_last.
  unfold eval, exec. rewrite P_reaction_job_run, Ha. cbn [fmap option_fmap option_map wrapped].
  destruct (P_on_rejected_effect w1 id e _ older active Ha eq_refl eq_refl Hb)
    as (H1 & H2 & H3).
  split; [exact H1|]. split; [exact H2|].
  unfold exec in H3. rewrite H3. reflexivity.
Qed.

(** A new breaker and a command that throws the string ["fail"]. *)
Lemma C9_promise_command_throw_is_rejection_witness :
  let w := new no_options in
  returned <$> activations
    (exec (step (reaction_job 0)) (exec (run (throws (JsString "fail"))) w)) !! 0%nat
  = Some (Rejected (JsString "fail"))
  /\ _buckets (this (exec (step (reaction_job 0)) (exec (run (throws (JsString "fail"))) w)))
     = [mkBucket 1 0 0 0 0].
Proof.
  intros w.
  destruct C9_promise_command_throw_is_rejection as (_ & _ & _ & H).
  destruct (H w (JsString "fail") [] _createBucket) as (_ & _ & H1 & H2);
    try reflexivity.
  split; [exact H2|exact H1].
Defined.

(** C10.  In both variants [forceOpen()] and [forceClose()] write the state
    of the moment into [_forced], whether a state is already forced or not,
    so that an [unforce()] right after either of them puts back the state in
    which it was called: the state pinned by an earlier force, not the state
    saved by it.  From any state, [forceOpen(); forceOpen(); unforce()] ends
    with the state [OPEN] and [isOpen()] true, and
    [forceClose(); forceOpen(); unforce()] ends with the state [CLOSED]. *)
Theorem C10_second_force_overwrites_saved_state :
  (forall w : World,
     _forced (this (exec forceOpen w)) = _state (this w)
     /\ _forced (this (exec forceClose w)) = _state (this w)
     /\ _state (this (exec unforce (exec forceOpen w))) = _state (this w)
     /\ _state (this (exec unforce (exec forceClose w))) = _state (this w)
     /\ _state
          (this (after [call_forceOpen; call_forceOpen; call_unforce] w))
        = Some OPEN
     /\ eval isOpen (after [call_forceOpen; call_forceOpen; call_unforce] w)
        = Normal true
     /\ _state
          (this (after [call_forceClose; call_forceOpen; call_unforce] w))
        = Some CLOSED)
  /\ (forall w : Cb.World,
     Cb._forced (Cb.this (exec Cb.forceOpen w)) = Cb._state (Cb.this w)
     /\ Cb._forced (Cb.this (exec Cb.forceClose w)) = Cb._state (Cb.this w)
     /\ Cb._state (Cb.this (exec Cb.unforce (exec Cb.forceOpen w))) = Cb._state (Cb.this w)
     /\ Cb._state (Cb.this (exec Cb.unforce (exec Cb.forceClose w))) = Cb._state (Cb.this w)
     /\ Cb._state
          (Cb.this (Cb.after [Cb.call_forceOpen; Cb.call_forceOpen; Cb.call_unforce] w))
        = Some OPEN
     /\ eval Cb.isOpen (Cb.after [Cb.call_forceOpen; Cb.call_forceOpen; Cb.call_unforce] w)
        = Normal true
     /\ Cb._state
          (Cb.this (Cb.after [Cb.call_forceClose; Cb.call_forceOpen; Cb.call_unforce] w))
        = Some CLOSED).
Proof.
  split; intros w; repeat split; reflexivity.
Qed.

End Claims.

(** * More of the code

    The ticker and its window, the life cycle of the state, the paths of a
    success and of a timeout, the constructor, and the accounting of the
    counters. *)

Section PromiseBreakerTicker.
Import PromiseBreaker.

#[local] Hint Unfold step run _executeCommand _incrementShortCircuits on_deadline
  on_fulfilled on_rejected settle
  increment increment_counter read_counter _updateState _calculateMetrics
  _lastBucket isOpen forceOpen forceClose unforce get_timeout set_timeout emit : P_methods.

Lemma P_length_tail {A} (l : list A) : length (tail l) = pred (length l).
Proof. destruct l; reflexivity. Qed.

Lemma P_tick_keeps_invariant (n : Z) (w : World) :
  ticker_invariant n w -> ticker_invariant n (exec tick w).
Proof.
  intros (Hn & Hl & Hi). unfold exec. rewrite P_tick_run. cbn [snd]. cbv zeta.
  unfold ticker_invariant. cbn [this bucketIndex].
  assert (Hnb : numBuckets
                  (set_buckets
                     ((if Z.of_nat (length (_buckets (this w))) >? numBuckets (this w)
                       then tail (_buckets (this w)) else _buckets (this w)) ++ [_createBucket])
                     (if ((bucketIndex w + 1 >? numBuckets (this w))
                          && loose_eq (_state (this w)) OPEN)%bool
                      then set_state (Some HALF_OPEN) (this w) else this w)) = n).
  { destruct (andb _ _); exact Hn. }
  split; [exact Hnb|]. split.
  - assert (Hb : _buckets
                   (set_buckets
                      ((if Z.of_nat (length (_buckets (this w))) >? numBuckets (this w)
                        then tail (_buckets (this w)) else _buckets (this w))
                       ++ [_createBucket])
                      (if ((bucketIndex w + 1 >? numBuckets (this w))
                           && loose_eq (_state (this w)) OPEN)%bool
                       then set_state (Some HALF_OPEN) (this w) else this w))
                 = (if Z.of_nat (length (_buckets (this w))) >? numBuckets (this w)
                    then tail (_buckets (this w)) else _buckets (this w)) ++ [_createBucket])
      by reflexivity.
    rewrite Hb, length_app. cbn [length]. rewrite Hn.
    destruct (Z.gtb_spec (Z.of_nat (length (_buckets (this w)))) n) as [Hg|Hg].
    + rewrite P_length_tail. lia.
    + lia.
  - rewrite Hn. destruct (Z.gtb_spec (bucketIndex w + 1) n); lia.
Qed.

Lemma P_step_keeps_invariant (n : Z) (a : Action) :
  preserves (keeps (ticker_invariant n)) (step a).
Proof.
  destruct a;
    [ | | | | intros w H; apply P_tick_keeps_invariant, H | | | ];
    autounfold with P_methods;
    repeat (preserve; try apply preserves_async);
    apply preserves_modify;
    intros [[wd nb td et vt cf bs st fo] bi acts tr]; unfold ticker_invariant; simpl;
    rewrite ?length_alter; intros H; exact H.
Qed.

(** From the constructor on, the ticker keeps its invariant. *)
Lemma P_after_keeps_invariant (n : Z) (acts : list Action) (w : World) :
  ticker_invariant n w -> ticker_invariant n (after acts w).
Proof.
  revert w. induction acts as [|a acts IH]; intros w H; [exact H|].
  simpl. apply IH. apply (P_step_keeps_invariant n a w H).
Qed.

Lemma P_new_invariant (opts : Options) :
  ticker_invariant (numBuckets (this (new opts))) (new opts).
Proof.
  unfold ticker_invariant. simpl. lia.
Qed.

Lemma P_after_app (l1 l2 : list Action) (w : World) :
  after (l1 ++ l2) w = after l2 (after l1 w).
Proof. unfold after. apply fold_left_app. Qed.

(** After [k] ticks the buckets are the last [n + 1] of the buckets before
    followed by [k] empty ones. *)
Lemma P_ticks_buckets (k : nat) (w : World) :
  0 <= numBuckets (this w) ->
  Z.of_nat (length (_buckets (this w))) <= numBuckets (this w) + 1 ->
  _buckets (this (after (replicate k interval_fires) w))
  = drop (length (_buckets (this w)) + k - Z.to_nat (numBuckets (this w) + 1))
      (_buckets (this w) ++ replicate k _createBucket).
Proof.
  revert w. induction k as [|k IH]; intros w Hn Hl.
  - simpl. rewrite app_nil_r.
    replace (length (_buckets (this w)) + 0 - Z.to_nat (numBuckets (this w) + 1))%nat
      with 0%nat by lia.
    reflexivity.
  - cbn [replicate after fold_left]. change (fold_left _ ?l ?x) with (after l x).
    change (step interval_fires) with tick.
    assert (Ht : exec tick w = (tick w).2) by reflexivity.
    pose proof (P_tick_run w) as E. cbv zeta in E.
    set (w1 := exec tick w) in *.
    assert (Hnb : numBuckets (this w1) = numBuckets (this w)).
    { subst w1. rewrite Ht, E. cbn [snd this]. destruct (andb _ _); reflexivity. }
    assert (Hb : _buckets (this w1)
                 = (if Z.of_nat (length (_buckets (this w))) >? numBuckets (this w)
                    then tail (_buckets (this w)) else _buckets (this w)) ++ [_createBucket]).
    { subst w1. rewrite Ht, E. cbn [snd this]. destruct (andb _ _); reflexivity. }
    rewrite IH; rewrite ?Hnb; try exact Hn.
    + rewrite Hb. rewrite <- app_assoc. cbn [app].
      destruct (Z.gtb_spec (Z.of_nat (length (_buckets (this w)))) (numBuckets (this w)))
        as [Hg|Hg].
      * destruct (_buckets (this w)) as [|b bs] eqn:Hbs; [simpl in Hg; lia|].
        cbn [tail length app]. rewrite length_app. cbn [length] in *.
        replace (S (length bs) + S k - Z.to_nat (numBuckets (this w) + 1))%nat
          with (S (length bs + 1 + k - Z.to_nat (numBuckets (this w) + 1))) by lia.
        reflexivity.
      * rewrite length_app. cbn [length]. f_equal. lia.
    + rewrite Hb, length_app. cbn [length].
      destruct (Z.gtb_spec (Z.of_nat (length (_buckets (this w)))) (numBuckets (this w)));
        [rewrite P_length_tail|]; lia.
Qed.

(** Ticks leave a half-open circuit half-open. *)
Lemma P_ticks_keep_half_open (k : nat) (w : World) :
  _state (this w) = Some HALF_OPEN ->
  _state (this (after (replicate k interval_fires) w)) = Some HALF_OPEN.
Proof.
  revert w. induction k as [|k IH]; intros w H; [exact H|].
  cbn [replicate after fold_left]. change (fold_left _ ?l ?x) with (after l x).
  apply IH. unfold exec. change (step interval_fires) with tick. rewrite P_tick_run.
  cbn [snd this]. cbv zeta. rewrite H. cbn [loose_eq status_code Z.eqb].
  rewrite andb_false_r. exact H.
Qed.

(** An open circuit whose count of ticks is [i] is half-open after
    [n + 1 - i] ticks. *)
Lemma P_ticks_half_open (j : nat) (w : World) :
  _state (this w) = Some OPEN ->
  bucketIndex w <= numBuckets (this w) ->
  Z.of_nat j = numBuckets (this w) - bucketIndex w ->
  _state (this (after (replicate (S j) interval_fires) w)) = Some HALF_OPEN.
Proof.
  revert w. induction j as [|j IH]; intros w Hs Hi Hj.
  - simpl. unfold exec. change (step interval_fires) with tick. rewrite P_tick_run.
    cbn [snd this]. cbv zeta. rewrite Hs. cbn [loose_eq status_code Z.eqb].
    rewrite (proj2 (Z.gtb_lt (bucketIndex w + 1) (numBuckets (this w)))) by lia.
    reflexivity.
  - cbn [replicate after fold_left]. change (fold_left _ ?l ?x) with (after l x).
    change (step interval_fires) with tick.
    assert (E : exec tick w
                = mkWorld
                    (set_buckets
                       ((if Z.of_nat (length (_buckets (this w))) >? numBuckets (this w)
                         then tail (_buckets (this w)) else _buckets (this w))
                        ++ [_createBucket]) (this w))
                    (bucketIndex w + 1) (activations w) (trace w)).
    { unfold exec. rewrite P_tick_run. cbn [snd]. cbv zeta.
      destruct (Z.gtb_spec (bucketIndex w + 1) (numBuckets (this w))); [lia|reflexivity]. }
    rewrite E. apply (IH (mkWorld _ _ _ _)); cbn [this bucketIndex set_buckets numBuckets _state].
    + exact Hs.
    + lia.
    + lia.
Qed.

End PromiseBreakerTicker.

Section CallbackBreakerTicker.
Import CallbackBreaker.

#[local] Hint Unfold step run _executeCommand _executeFallback callback
  increment increment_counter read_counter _updateState _calculateMetrics
  _lastBucket isOpen forceOpen forceClose unforce get_timeout set_timeout emit : C_methods.

Lemma C_length_tail {A} (l : list A) : length (tail l) = pred (length l).
Proof. destruct l; reflexivity. Qed.

Lemma C_tick_keeps_invariant (n : Z) (w : World) :
  ticker_invariant n w -> ticker_invariant n (exec tick w).
Proof.
  intros (Hn & Hl & Hi). unfold exec. rewrite C_tick_run. cbn [snd]. cbv zeta.
  unfold ticker_invariant. cbn [this bucketIndex].
  assert (Hnb : numBuckets
                  (set_buckets
                     ((if Z.of_nat (length (_buckets (this w))) >? numBuckets (this w)
                       then tail (_buckets (this w)) else _buckets (this w)) ++ [_createBucket])
                     (if ((bucketIndex w + 1 >? numBuckets (this w))
                          && loose_eq (_state (this w)) OPEN)%bool
                      then set_state (Some HALF_OPEN) (this w) else this w)) = n).
  { destruct (andb _ _); exact Hn. }
  split; [exact Hnb|]. split.
  - assert (Hb : _buckets
                   (set_buckets
                      ((if Z.of_nat (length (_buckets (this w))) >? numBuckets (this w)
                        then tail (_buckets (this w)) else _buckets (this w))
                       ++ [_createBucket])
                      (if ((bucketIndex w + 1 >? numBuckets (this w))
                           && loose_eq (_state (this w)) OPEN)%bool
                       then set_state (Some HALF_OPEN) (this w) else this w))
                 = (if Z.of_nat (length (_buckets (this w))) >? numBuckets (this w)
                    then tail (_buckets (this w)) else _buckets (this w)) ++ [_createBucket])
      by reflexivity.
    rewrite Hb, length_app. cbn [length]. rewrite Hn.
    destruct (Z.gtb_spec (Z.of_nat (length (_buckets (this w)))) n) as [Hg|Hg].
    + rewrite C_length_tail. lia.
    + lia.
  - rewrite Hn. destruct (Z.gtb_spec (bucketIndex w + 1) n); lia.
Qed.

Lemma C_step_keeps_invariant (n : Z) (a : Action) :
  preserves (keeps (ticker_invariant n)) (step a).
Proof.
  destruct a;
    [ | | | | intros w H; apply C_tick_keeps_invariant, H | | ];
    autounfold with C_methods;
    repeat (preserve; try (apply C_preserves_call_back; intros []; autounfold with C_methods));
    apply preserves_modify;
    intros [[wd nb td et vt bs st fo] bi acts tr]; unfold ticker_invariant; simpl;
    rewrite ?length_alter; intros H; exact H.
Qed.

(** From the constructor on, the ticker keeps its invariant. *)
Lemma C_after_keeps_invariant (n : Z) (acts : list Action) (w : World) :
  ticker_invariant n w -> ticker_invariant n (after acts w).
Proof.
  revert w. induction acts as [|a acts IH]; intros w H; [exact H|].
  simpl. apply IH. apply (C_step_keeps_invariant n a w H).
Qed.

Lemma C_new_invariant (opts : Options) :
  ticker_invariant (numBuckets (this (new opts))) (new opts).
Proof.
  unfold ticker_invariant. simpl. lia.
Qed.

Lemma C_after_app (l1 l2 : list Action) (w : World) :
  after (l1 ++ l2) w = after l2 (after l1 w).
Proof. unfold after. apply fold_left_app. Qed.

(** After [k] ticks the buckets are the last [n + 1] of the buckets before
    followed by [k] empty ones. *)
Lemma C_ticks_buckets (k : nat) (w : World) :
  0 <= numBuckets (this w) ->
  Z.of_nat (length (_buckets (this w))) <= numBuckets (this w) + 1 ->
  _buckets (this (after (replicate k interval_fires) w))
  = drop (length (_buckets (this w)) + k - Z.to_nat (numBuckets (this w) + 1))
      (_buckets (this w) ++ replicate k _createBucket).
Proof.
  revert w. induction k as [|k IH]; intros w Hn Hl.
  - simpl. rewrite app_nil_r.
    replace (length (_buckets (this w)) + 0 - Z.to_nat (numBuckets (this w) + 1))%nat
      with 0%nat by lia.
    reflexivity.
  - cbn [replicate after fold_left]. change (fold_left _ ?l ?x) with (after l x).
    change (step interval_fires) with tick.
    assert (Ht : exec tick w = (tick w).2) by reflexivity.
    pose proof (C_tick_run w) as E. cbv zeta in E.
    set (w1 := exec tick w) in *.
    assert (Hnb : numBuckets (this w1) = numBuckets (this w)).
    { subst w1. rewrite Ht, E. cbn [snd this]. destruct (andb _ _); reflexivity. }
    assert (Hb : _buckets (this w1)
                 = (if Z.of_nat (length (_buckets (this w))) >? numBuckets (this w)
                    then tail (_buckets (this w)) else _buckets (this w)) ++ [_createBucket]).
    { subst w1. rewrite Ht, E. cbn [snd this]. destruct (andb _ _); reflexivity. }
    rewrite IH; rewrite ?Hnb; try exact Hn.
    + rewrite Hb. rewrite <- app_assoc. cbn [app].
      destruct (Z.gtb_spec (Z.of_nat (length (_buckets (this w)))) (numBuckets (this w)))
        as [Hg|Hg].
      * destruct (_buckets (this w)) as [|b bs] eqn:Hbs; [simpl in Hg; lia|].
        cbn [tail length app]. rewrite length_app. cbn [length] in *.
        replace (S (length bs) + S k - Z.to_nat (numBuckets (this w) + 1))%nat
          with (S (length bs + 1 + k - Z.to_nat (numBuckets (this w) + 1))) by lia.
        reflexivity.
      * rewrite length_app. cbn [length]. f_equal. lia.
    + rewrite Hb, length_app. cbn [length].
      destruct (Z.gtb_spec (Z.of_nat (length (_buckets (this w)))) (numBuckets (this w)));
        [rewrite C_length_tail|]; lia.
Qed.

(** Ticks leave a half-open circuit half-open. *)
Lemma C_ticks_keep_half_open (k : nat) (w : World) :
  _state (this w) = Some HALF_OPEN ->
  _state (this (after (replicate k interval_fires) w)) = Some HALF_OPEN.
Proof.
  revert w. induction k as [|k IH]; intros w H; [exact H|].
  cbn [replicate after fold_left]. change (fold_left _ ?l ?x) with (after l x).
  apply IH. unfold exec. change (step interval_fires) with tick. rewrite C_tick_run.
  cbn [snd this]. cbv zeta. rewrite H. cbn [loose_eq status_code Z.eqb].
  rewrite andb_false_r. exact H.
Qed.

(** An open circuit whose count of ticks is [i] is half-open after
    [n + 1 - i] ticks. *)
Lemma C_ticks_half_open (j : nat) (w : World) :
  _state (this w) = Some OPEN ->
  bucketIndex w <= numBuckets (this w) ->
  Z.of_nat j = numBuckets (this w) - bucketIndex w ->
  _state (this (after (replicate (S j) interval_fires) w)) = Some HALF_OPEN.
Proof.
  revert w. induction j as [|j IH]; intros w Hs Hi Hj.
  - simpl. unfold exec. change (step interval_fires) with tick. rewrite C_tick_run.
    cbn [snd this]. cbv zeta. rewrite Hs. cbn [loose_eq status_code Z.eqb].
    rewrite (proj2 (Z.gtb_lt (bucketIndex w + 1) (numBuckets (this w)))) by lia.
    reflexivity.
  - cbn [replicate after fold_left]. change (fold_left _ ?l ?x) with (after l x).
    change (step interval_fires) with tick.
    assert (E : exec tick w
                = mkWorld
                    (set_buckets
                       ((if Z.of_nat (length (_buckets (this w))) >? numBuckets (this w)
                         then tail (_buckets (this w)) else _buckets (this w))
                        ++ [_createBucket]) (this w))
                    (bucketIndex w + 1) (activations w) (trace w)).
    { unfold exec. rewrite C_tick_run. cbn [snd]. cbv zeta.
      destruct (Z.gtb_spec (bucketIndex w + 1) (numBuckets (this w))); [lia|reflexivity]. }
    rewrite E. apply (IH (mkWorld _ _ _ _)); cbn [this bucketIndex set_buckets numBuckets _state].
    + exact Hs.
    + lia.
    + lia.
Qed.

End CallbackBreakerTicker.

(** As [preserve], with [tac] tried first on every statement: for the calls
    of a method that has a lemma of its own. *)
Ltac preserve_with tac :=
  repeat first
    [ tac
    | apply preserves_ret
    | apply preserves_throw
    | apply preserves_gets
    | apply preserves_when
    | apply preserves_bind; [|intros ?]
    | match goal with
      | |- preserves _ (match ?x with _ => _ end) => destruct x
      end ].

Section PromiseBreakerLifeCycle.
Import PromiseBreaker.

#[local] Hint Unfold step run _executeCommand _incrementShortCircuits on_deadline
  on_fulfilled on_rejected settle
  increment increment_counter _lastBucket isOpen get_timeout set_timeout emit : P_methods.

Lemma P_updateState_keeps_open :
  preserves (keeps (fun w => _state (this w) = Some OPEN)) _updateState.
Proof.
  intros w H. unfold exec. rewrite P_updateState_run_else by (rewrite H; reflexivity).
  cbn [snd]. cbv zeta. destruct (andb _ _); [reflexivity|exact H].
Qed.

Lemma P_updateState_keeps_unprobed :
  preserves
    (keeps (fun w => _state (this w) <> Some CLOSED /\ _state (this w) <> Some HALF_OPEN))
    _updateState.
Proof.
  intros w [H1 H2]. unfold exec.
  rewrite P_updateState_run_else by (apply loose_eq_false; exact H2).
  cbn [snd]. cbv zeta. destruct (andb _ _); [split; discriminate|split; assumption].
Qed.

(** The command executor leaves an open circuit open. *)
Lemma P_executor_keeps_open (a : Action) :
  of_executor a = true ->
  preserves (keeps (fun w => _state (this w) = Some OPEN)) (step a).
Proof.
  destruct a; try discriminate; intros _;
    autounfold with P_methods;
    preserve_with ltac:(first [apply P_updateState_keeps_open | apply preserves_async]);
    apply preserves_modify; intros [[wd nb td et vt cf bs st fo] bi acts tr]; simpl;
    intros H; exact H.
Qed.

(** The command executor closes no circuit but a half-open one. *)
Lemma P_executor_keeps_unprobed (a : Action) :
  of_executor a = true ->
  preserves
    (keeps (fun w => _state (this w) <> Some CLOSED /\ _state (this w) <> Some HALF_OPEN))
    (step a).
Proof.
  destruct a; try discriminate; intros _;
    autounfold with P_methods;
    preserve_with ltac:(first [apply P_updateState_keeps_unprobed | apply preserves_async]);
    apply preserves_modify; intros [[wd nb td et vt cf bs st fo] bi acts tr]; simpl;
    intros H; exact H.
Qed.

Lemma P_executor_life_cycle (a : Action) (w : World) :
  of_executor a = true ->
  (_state (this w) = Some OPEN -> _state (this (exec (step a) w)) = Some OPEN)
  /\ (_state (this (exec (step a) w)) = Some CLOSED ->
      _state (this w) = Some CLOSED \/ _state (this w) = Some HALF_OPEN).
Proof.
  intros Ha. split; [apply (P_executor_keeps_open a Ha w)|].
  intros H. pose proof (P_executor_keeps_unprobed a Ha w) as K. unfold keeps in K.
  destruct (_state (this w)) as [[]|] eqn:Es; auto;
    exfalso; (destruct K as [K _]; [split; discriminate|exact (K H)]).
Qed.

End PromiseBreakerLifeCycle.

Section CallbackBreakerLifeCycle.
Import CallbackBreaker.

#[local] Hint Unfold step run _executeCommand _executeFallback callback
  increment increment_counter _lastBucket isOpen get_timeout set_timeout emit : C_methods.

Lemma C_updateState_keeps_open :
  preserves (keeps (fun w => _state (this w) = Some OPEN)) _updateState.
Proof.
  intros w H. unfold exec. rewrite C_updateState_run_else by (rewrite H; reflexivity).
  cbn [snd]. cbv zeta. destruct (andb _ _); [reflexivity|exact H].
Qed.

Lemma C_updateState_keeps_unprobed :
  preserves
    (keeps (fun w => _state (this w) <> Some CLOSED /\ _state (this w) <> Some HALF_OPEN))
    _updateState.
Proof.
  intros w [H1 H2]. unfold exec.
  rewrite C_updateState_run_else by (apply loose_eq_false; exact H2).
  cbn [snd]. cbv zeta. destruct (andb _ _); [split; discriminate|split; assumption].
Qed.

(** The command executor leaves an open circuit open. *)
Lemma C_executor_keeps_open (a : Action) :
  of_executor a = true ->
  preserves (keeps (fun w => _state (this w) = Some OPEN)) (step a).
Proof.
  destruct a; try discriminate; intros _;
    autounfold with C_methods;
    preserve_with
      ltac:(first [apply C_updateState_keeps_open
                  | (apply C_preserves_call_back; intros []; autounfold with C_methods)]);
    apply preserves_modify; intros [[wd nb td et vt bs st fo] bi acts tr]; simpl;
    intros H; exact H.
Qed.

(** The command executor closes no circuit but a half-open one. *)
Lemma C_executor_keeps_unprobed (a : Action) :
  of_executor a = true ->
  preserves
    (keeps (fun w => _state (this w) <> Some CLOSED /\ _state (this w) <> Some HALF_OPEN))
    (step a).
Proof.
  destruct a; try discriminate; intros _;
    autounfold with C_methods;
    preserve_with
      ltac:(first [apply C_updateState_keeps_unprobed
                  | (apply C_preserves_call_back; intros []; autounfold with C_methods)]);
    apply preserves_modify; intros [[wd nb td et vt bs st fo] bi acts tr]; simpl;
    intros H; exact H.
Qed.

Lemma C_executor_life_cycle (a : Action) (w : World) :
  of_executor a = true ->
  (_state (this w) = Some OPEN -> _state (this (exec (step a) w)) = Some OPEN)
  /\ (_state (this (exec (step a) w)) = Some CLOSED ->
      _state (this w) = Some CLOSED \/ _state (this w) = Some HALF_OPEN).
Proof.
  intros Ha. split; [apply (C_executor_keeps_open a Ha w)|].
  intros H. pose proof (C_executor_keeps_unprobed a Ha w) as K. unfold keeps in K.
  destruct (_state (this w)) as [[]|] eqn:Es; auto;
    exfalso; (destruct K as [K _]; [split; discriminate|exact (K H)]).
Qed.

End CallbackBreakerLifeCycle.

(** ** The properties

    Names without a module are those of the promise variant; those of the
    callback variant are written with [Cb]. *)

Section More.
Import PromiseBreaker.

(** X1.  In both variants, after any history from the constructor,
    [numBuckets] is what the constructor set, the array holds at least one
    bucket and at most [numBuckets + 1] (one, if [numBuckets] is negative),
    and the count of ticks [bucketIndex] is between 0 and [numBuckets]. *)
Theorem X1_window_is_bounded :
  (forall (acts : list Action) (opts : Options),
     numBuckets (this (after acts (new opts))) = numBuckets (this (new opts))
     /\ 1 <= Z.of_nat (length (_buckets (this (after acts (new opts)))))
        <= Z.max (numBuckets (this (new opts)) + 1) 1
     /\ 0 <= bucketIndex (after acts (new opts)) <= Z.max (numBuckets (this (new opts))) 0)
  /\ (forall (acts : list Cb.Action) (opts : Cb.Options),
        Cb.numBuckets (Cb.this (Cb.after acts (Cb.new opts)))
        = Cb.numBuckets (Cb.this (Cb.new opts))
        /\ 1 <= Z.of_nat (length (Cb._buckets (Cb.this (Cb.after acts (Cb.new opts)))))
           <= Z.max (Cb.numBuckets (Cb.this (Cb.new opts)) + 1) 1
        /\ 0 <= Cb.bucketIndex (Cb.after acts (Cb.new opts))
           <= Z.max (Cb.numBuckets (Cb.this (Cb.new opts))) 0).
Proof.
  split.
  - intros acts opts.
    exact (P_after_keeps_invariant _ acts (new opts) (P_new_invariant opts)).
  - intros acts opts.
    exact (C_after_keeps_invariant _ acts (Cb.new opts) (C_new_invariant opts)).
Qed.

Lemma Sigma_replicate_zero {A} (f : A -> N) (x : A) (n : nat) :
  f x = 0%N -> Sigma f (replicate n x) = 0%N.
Proof.
  intros H. induction n as [|n IH]; simpl; [reflexivity|]. rewrite H, IH. reflexivity.
Qed.

Lemma P_fresh_window_metrics (n : nat) :
  specified_metrics (replicate n _createBucket) = mkMetrics 0 0 0.
Proof.
  unfold specified_metrics. rewrite !Sigma_replicate_zero by reflexivity. reflexivity.
Qed.

Lemma C_fresh_window_metrics (n : nat) :
  Cb.specified_metrics (replicate n Cb._createBucket) = mkMetrics 0 0 0.
Proof.
  unfold Cb.specified_metrics. rewrite !Sigma_replicate_zero by reflexivity. reflexivity.
Qed.

(** X2.  In both variants, when [numBuckets] is not negative, [numBuckets + 1]
    ticks in a row after any history from the constructor leave
    [numBuckets + 1] empty buckets: every outcome counted before is out of
    the window, and the metrics are 0, 0 and 0. *)
Theorem X2_a_window_of_ticks_forgets :
  (forall (acts : list Action) (opts : Options),
     0 <= numBuckets (this (new opts)) ->
     let n := Z.to_nat (numBuckets (this (new opts)) + 1) in
     let w := after (acts ++ replicate n interval_fires) (new opts) in
     _buckets (this w) = replicate n _createBucket
     /\ eval _calculateMetrics w = Normal (mkMetrics 0 0 0))
  /\ (forall (acts : list Cb.Action) (opts : Cb.Options),
        0 <= Cb.numBuckets (Cb.this (Cb.new opts)) ->
        let n := Z.to_nat (Cb.numBuckets (Cb.this (Cb.new opts)) + 1) in
        let w := Cb.after (acts ++ replicate n Cb.interval_fires) (Cb.new opts) in
        Cb._buckets (Cb.this w) = replicate n Cb._createBucket
        /\ eval Cb._calculateMetrics w = Normal (mkMetrics 0 0 0)).
Proof.
  split.
  - intros acts opts Hn n w.
    destruct (P_after_keeps_invariant _ acts (new opts) (P_new_invariant opts))
      as (Hnb & Hl & _).
    assert (Hb : _buckets (this w) = replicate n _createBucket).
    { subst w. rewrite P_after_app, P_ticks_buckets; rewrite ?Hnb; try lia.
      fold n. replace (length (_buckets (this (after acts (new opts)))) + n - n)%nat
        with (length (_buckets (this (after acts (new opts))))) by lia.
      apply drop_app_length. }
    split; [exact Hb|].
    unfold eval. rewrite P_calculateMetrics_run. cbn [fst]. rewrite Hb.
    rewrite P_fresh_window_metrics. reflexivity.
  - intros acts opts Hn n w.
    destruct (C_after_keeps_invariant _ acts (Cb.new opts) (C_new_invariant opts))
      as (Hnb & Hl & _).
    assert (Hb : Cb._buckets (Cb.this w) = replicate n Cb._createBucket).
    { subst w. rewrite C_after_app, C_ticks_buckets; rewrite ?Hnb; try lia.
      fold n.
      replace (length (Cb._buckets (Cb.this (Cb.after acts (Cb.new opts)))) + n - n)%nat
        with (length (Cb._buckets (Cb.this (Cb.after acts (Cb.new opts))))) by lia.
      apply drop_app_length. }
    split; [exact Hb|].
    unfold eval. rewrite C_calculateMetrics_run. cbn [fst]. rewrite Hb.
    rewrite C_fresh_window_metrics. reflexivity.
Qed.

(** Six failures on a new breaker, then eleven ticks. *)
Lemma X2_a_window_of_ticks_forgets_witness :
  eval _calculateMetrics
    (after (flat_map test_fail (seq 0 6) ++ replicate 11 interval_fires) (new no_options))
  = Normal (mkMetrics 0 0 0)
  /\ eval Cb._calculateMetrics
       (Cb.after (replicate 6 Cb.test_fail ++ replicate 11 Cb.interval_fires)
          (Cb.new Cb.no_options))
     = Normal (mkMetrics 0 0 0).
Proof.
  destruct X2_a_window_of_ticks_forgets as (H1 & H2).
  split.
  - apply (H1 (flat_map test_fail (seq 0 6)) no_options). vm_compute. discriminate.
  - apply (H2 (replicate 6 Cb.test_fail) Cb.no_options). vm_compute. discriminate.
Defined.

(** X3.  In both variants, when [numBuckets] is not negative, a circuit that
    is open after any history from the constructor is half-open after
    [numBuckets + 1] ticks in a row, so that [isOpen()] is false and the next
    command is called; this holds whether or not a state is forced. *)
Theorem X3_open_circuit_is_probed_within_a_window :
  (forall (acts : list Action) (opts : Options),
     0 <= numBuckets (this (new opts)) ->
     _state (this (after acts (new opts))) = Some OPEN ->
     let n := Z.to_nat (numBuckets (this (new opts)) + 1) in
     let w := after (acts ++ replicate n interval_fires) (new opts) in
     _state (this w) = Some HALF_OPEN /\ eval isOpen w = Normal false)
  /\ (forall (acts : list Cb.Action) (opts : Cb.Options),
        0 <= Cb.numBuckets (Cb.this (Cb.new opts)) ->
        Cb._state (Cb.this (Cb.after acts (Cb.new opts))) = Some OPEN ->
        let n := Z.to_nat (Cb.numBuckets (Cb.this (Cb.new opts)) + 1) in
        let w := Cb.after (acts ++ replicate n Cb.interval_fires) (Cb.new opts) in
        Cb._state (Cb.this w) = Some HALF_OPEN /\ eval Cb.isOpen w = Normal false).
Proof.
  split.
  - intros acts opts Hn Hs n w.
    destruct (P_after_keeps_invariant _ acts (new opts) (P_new_invariant opts))
      as (Hnb & _ & Hi).
    set (w0 := after acts (new opts)) in *.
    assert (H : _state (this w) = Some HALF_OPEN).
    { subst w. rewrite P_after_app. fold w0.
      replace n with (S (Z.to_nat (numBuckets (this w0) - bucketIndex w0))
                      + Z.to_nat (bucketIndex w0))%nat by (subst n; lia).
      rewrite replicate_add, P_after_app.
      apply P_ticks_keep_half_open. apply P_ticks_half_open; [exact Hs|lia|lia]. }
    split; [exact H|]. unfold eval. rewrite P_isOpen_run, H. reflexivity.
  - intros acts opts Hn Hs n w.
    destruct (C_after_keeps_invariant _ acts (Cb.new opts) (C_new_invariant opts))
      as (Hnb & _ & Hi).
    set (w0 := Cb.after acts (Cb.new opts)) in *.
    assert (H : Cb._state (Cb.this w) = Some HALF_OPEN).
    { subst w. rewrite C_after_app. fold w0.
      replace n with (S (Z.to_nat (Cb.numBuckets (Cb.this w0) - Cb.bucketIndex w0))
                      + Z.to_nat (Cb.bucketIndex w0))%nat by (subst n; lia).
      rewrite replicate_add, C_after_app.
      apply C_ticks_keep_half_open. apply C_ticks_half_open; [exact Hs|lia|lia]. }
    split; [exact H|]. unfold eval. rewrite C_isOpen_run, H. reflexivity.
Qed.

(** Three ticks, six failures that open the circuit, a forced state, and
    eleven ticks. *)
Lemma X3_open_circuit_is_probed_within_a_window_witness :
  eval isOpen
    (after ((replicate 3 interval_fires ++ flat_map test_fail (seq 0 6) ++ [call_forceOpen])
            ++ replicate 11 interval_fires) (new no_options))
  = Normal false
  /\ eval Cb.isOpen
       (Cb.after ((replicate 3 Cb.interval_fires ++ replicate 6 Cb.test_fail
                   ++ [Cb.call_forceOpen])
                  ++ replicate 11 Cb.interval_fires) (Cb.new Cb.no_options))
     = Normal false.
Proof.
  destruct X3_open_circuit_is_probed_within_a_window as (H1 & H2).
  split.
  - apply (H1 (replicate 3 interval_fires ++ flat_map test_fail (seq 0 6) ++ [call_forceOpen])
             no_options); [vm_compute; discriminate|reflexivity].
  - apply (H2 (replicate 3 Cb.interval_fires ++ replicate 6 Cb.test_fail
               ++ [Cb.call_forceOpen]) Cb.no_options);
      [vm_compute; discriminate|reflexivity].
Defined.

(** X4.  In both variants the command executor ([run] and the callbacks of
    its activations) leaves an open circuit open, and it sets the state to
    [CLOSED] only from [CLOSED] or [HALF_OPEN]: an open circuit closes only
    after a tick has made it half-open (or by [forceClose] and [unforce]). *)
Theorem X4_executor_closes_only_after_a_probe :
  (forall (a : Action) (w : World),
     of_executor a = true ->
     (_state (this w) = Some OPEN -> _state (this (exec (step a) w)) = Some OPEN)
     /\ (_state (this (exec (step a) w)) = Some CLOSED ->
         _state (this w) = Some CLOSED \/ _state (this w) = Some HALF_OPEN))
  /\ (forall (a : Cb.Action) (w : Cb.World),
        Cb.of_executor a = true ->
        (Cb._state (Cb.this w) = Some OPEN ->
         Cb._state (Cb.this (exec (Cb.step a) w)) = Some OPEN)
        /\ (Cb._state (Cb.this (exec (Cb.step a) w)) = Some CLOSED ->
            Cb._state (Cb.this w) = Some CLOSED \/ Cb._state (Cb.this w) = Some HALF_OPEN)).
Proof.
  split; [exact P_executor_life_cycle|exact C_executor_life_cycle].
Qed.

(** Seven runs start on a closed circuit; six fail and open it; the seventh
    succeeds afterwards and the circuit stays open. *)
Lemma X4_executor_closes_only_after_a_probe_witness :
  (let w :=
     after (map call_run (replicate 6 (throws (JsString "fail")) ++ [returns JsNull])
            ++ map reaction_job (seq 0 6)) (new no_options) in
   _state (this (exec (step (reaction_job 6)) w)) = Some OPEN)
  /\ (let w :=
        Cb.after (Cb.call_run (Cb.mkCommand [] None) None :: replicate 6 Cb.test_fail)
          (Cb.new Cb.no_options) in
      Cb._state (Cb.this (exec (Cb.step (Cb.callback_called 0 Cb.success)) w)) = Some OPEN).
Proof.
  destruct X4_executor_closes_only_after_a_probe as (H1 & H2).
  split.
  - intros w. apply (H1 (reaction_job 6) w); reflexivity.
  - intros w. apply (H2 (Cb.callback_called 0 Cb.success) w); reflexivity.
Defined.

(** What deciding a race leaves: one more in the counter, the variable
    [timeout] set to [null], and the promise settled. *)
Lemma P_decide_effect (w : World) (id : nat) (prop : Counter) (p : PromiseState)
    (a : Activation) (older : list Bucket) (active : Bucket) :
  activations w !! id = Some a ->
  returned a = Pending ->
  _buckets (this w) = older ++ [active] ->
  _buckets (this (exec (settle id p) (exec (increment id prop) w)))
  = older ++ [bump prop active]
  /\ activations (exec (settle id p) (exec (increment id prop) w)) !! id
     = Some (mkActivation None (wrapped a) p).
Proof.
  intros Ha Hp Hb.
  assert (Hne : _buckets (this w) <> []) by (rewrite Hb; destruct older; discriminate).
  split.
  - pose proof (P_increment_run w id prop older active Hb) as E.
    unfold exec at 2. rewrite E. cbn [snd]. clear E.
    set (w1 := on_this _ w).
    change (_buckets (this (exec (when (is_null (_forced (this w))) _updateState) w1))
            = older ++ [bump prop active]).
    destruct (is_null _); simpl; [rewrite P_updateState_buckets|]; reflexivity.
  - rewrite (P_increment_activations w id prop p Hne).
    rewrite !list_lookup_alter_eq, Ha. simpl. rewrite Hp. reflexivity.
Qed.

Lemma C_updateState_buckets (w : Cb.World) :
  Cb._buckets (Cb.this (exec Cb._updateState w)) = Cb._buckets (Cb.this w).
Proof.
  unfold exec. destruct (loose_eq (Cb._state (Cb.this w)) HALF_OPEN) eqn:H.
  - destruct (Cb._buckets (Cb.this w)) as [|b bs] eqn:Hb.
    + rewrite C_updateState_throws by assumption. exact Hb.
    + destruct (nonempty_snoc (b :: bs)) as (older & active & Hs); [discriminate|].
      rewrite Hs in Hb.
      rewrite (C_updateState_run_half_open w older active H Hb). cbn [snd]. cbv zeta.
      rewrite Hs. destruct (_ && _)%bool; exact Hb.
  - rewrite C_updateState_run_else by assumption. simpl.
    destruct (_ && _)%bool; reflexivity.
Qed.

Lemma C_increment_buckets (w : Cb.World) (id : nat) (prop : Cb.Counter)
    (older : list Cb.Bucket) (active : Cb.Bucket) :
  Cb.racing id w ->
  Cb._buckets (Cb.this w) = older ++ [active] ->
  Cb._buckets (Cb.this (exec (Cb.increment id prop) w)) = older ++ [Cb.bump prop active].
Proof.
  intros Hr Hb. unfold exec at 1. rewrite (C_increment_racing w id prop older active Hr Hb).
  cbn [snd]. set (w1 := Cb.on_this _ w).
  change (Cb._buckets (Cb.this (exec (when (is_null (Cb._forced (Cb.this w))) Cb._updateState) w1))
          = older ++ [Cb.bump prop active]).
  destruct (is_null _); simpl; [rewrite C_updateState_buckets|]; reflexivity.
Qed.

(** X5.  When the deadline comes while the race of its activation is open,
    [timeouts] of the bucket that is active at that moment gets one more.  In
    the promise variant the promise that [run] returned is rejected with a
    [CircuitWorkerTimeout], and whatever way the command's promise settles
    afterwards, its reaction changes neither the object nor the trace nor
    that rejection.  In the callback variant every later call of a callback
    of the activation changes nothing. *)
Theorem X5_deadline_counts_a_timeout :
  (forall (w : World) (id : nat) (a : Activation) (older : list Bucket) (active : Bucket),
     activations w !! id = Some a ->
     no_handle (timeout a) = false ->
     returned a = Pending ->
     _buckets (this w) = older ++ [active] ->
     let w1 := exec (step (deadline_fires id)) w in
     _buckets (this w1)
     = older ++ [mkBucket (failures active) (successes active) (timeouts active + 1)
                   (ignores active) (shortCircuits active)]
     /\ returned <$> activations w1 !! id = Some (Rejected CircuitWorkerTimeout)
     /\ forall p : PromiseState,
          let w2 := after [command_settles id p; reaction_job id] w1 in
          this w2 = this w1
          /\ trace w2 = trace w1
          /\ returned <$> activations w2 !! id = Some (Rejected CircuitWorkerTimeout))
  /\ (forall (w : Cb.World) (id : nat) (older : list Cb.Bucket) (active : Cb.Bucket),
        Cb.racing id w ->
        Cb._buckets (Cb.this w) = older ++ [active] ->
        let w1 := exec (Cb.step (Cb.deadline_fires id)) w in
        Cb._buckets (Cb.this w1)
        = older ++ [Cb.mkBucket (Cb.failures active) (Cb.successes active)
                      (Cb.timeouts active + 1) (Cb.shortCircuits active)]
        /\ forall c : Cb.Callback, Cb.step (Cb.callback_called id c) w1 = (Normal tt, w1)).
Proof.
  split.
  - intros w id a older active Ha Hn Hp Hb w1.
    assert (Hr : racing id w) by (exists a; split; assumption).
    assert (Hne : _buckets (this w) <> []) by (rewrite Hb; destruct older; discriminate).
    assert (E : w1 = exec (settle id (Rejected CircuitWorkerTimeout))
                       (exec (increment id c_timeouts) w)).
    { subst w1. unfold exec at 1. change (step (deadline_fires id)) with (on_deadline id).
      rewrite (P_on_deadline_racing w id Hr Hne). reflexivity. }
    destruct (P_decide_effect w id c_timeouts (Rejected CircuitWorkerTimeout) a older active
                Ha Hp Hb) as (H1 & H2).
    rewrite <- E in H1, H2.
    split; [exact H1|]. split; [rewrite H2; reflexivity|].
    intros p w2.
    assert (Hd : decided id w1) by (eexists; split; [exact H2|reflexivity]).
    set (w1' := exec (step (command_settles id p)) w1).
    assert (Hd' : decided id w1') by (apply (P_step_keeps_decided id _ w1 Hd)).
    assert (E2 : w2 = w1').
    { subst w2.
      change (after [command_settles id p; reaction_job id] w1)
        with (exec (step (reaction_job id)) w1').
      unfold exec at 1.
      rewrite (P_handler_decided w1' id (reaction_job id) Hd'); [reflexivity|].
      simpl. apply Nat.eqb_refl. }
    rewrite E2. subst w1'. split; [reflexivity|]. split; [reflexivity|].
    simpl. rewrite list_lookup_alter_eq, H2. simpl. destruct (wrapped a); reflexivity.
  - intros w id older active Hr Hb w1.
    assert (Hne : Cb._buckets (Cb.this w) <> []) by (rewrite Hb; destruct older; discriminate).
    split.
    + subst w1. change (Cb.step (Cb.deadline_fires id)) with (Cb.increment id Cb.c_timeouts).
      apply (C_increment_buckets w id Cb.c_timeouts older active Hr Hb).
    + intros c. apply (C_handler_decided w1 id (Cb.callback_called id c)).
      * subst w1. apply (C_increment_decides w id Cb.c_timeouts Hr Hne).
      * simpl. apply Nat.eqb_refl.
Qed.

(** A run whose command returns a pending promise, in the promise variant,
    and a command that keeps its callbacks, in the callback variant. *)
Lemma X5_deadline_counts_a_timeout_witness :
  (let w := after [call_run (returns_promise Pending)] (new no_options) in
   _buckets (this (exec (step (deadline_fires 0)) w)) = [] ++ [mkBucket 0 0 (0 + 1) 0 0])
  /\ (let w := Cb.after [Cb.call_run (Cb.mkCommand [] None) None] (Cb.new Cb.no_options) in
      Cb._buckets (Cb.this (exec (Cb.step (Cb.deadline_fires 0)) w))
      = [] ++ [Cb.mkBucket 0 0 (0 + 1) 0]).
Proof.
  destruct X5_deadline_counts_a_timeout as (H1 & H2).
  split.
  - intros w.
    apply (H1 w 0%nat (mkActivation (Some 1%nat) Pending Pending) [] _createBucket);
      reflexivity.
  - intros w. apply (H2 w 0%nat [] Cb._createBucket); [|reflexivity].
    eexists. split; reflexivity.
Defined.

Lemma P_step_run (w : World) (command : Command) :
  exec (step (call_run command)) w = exec (run command) w.
Proof.
  unfold exec. simpl. unfold bind. destruct (run command w) as [[p|e] w']; reflexivity.
Qed.

(** [run] on a circuit that is not open: a new activation, its timer armed,
    the command called, and nothing counted. *)
Lemma P_run_not_open (w : World) (command : Command) :
  eval isOpen w = Normal false ->
  run command w
  = (Normal (activation_promise (length (activations w))),
     mkWorld (this w) (bucketIndex w)
       (activations w
        ++ [mkActivation (Some (S (length (activations w)))) (wrapPromise command) Pending])
       (trace w ++ [command_called (length (activations w))])).
Proof.
  intros Ho. unfold eval in Ho. rewrite P_isOpen_run in Ho. simpl in Ho. injection Ho as Ho.
  rewrite P_run_run, Ho. reflexivity.
Qed.

Lemma P_fulfilled_job_effect (w : World) (id : nat) (a : Activation) (v : JsValue)
    (older : list Bucket) (active : Bucket) :
  activations w !! id = Some a ->
  no_handle (timeout a) = false ->
  wrapped a = Fulfilled v ->
  returned a = Pending ->
  _buckets (this w) = older ++ [active] ->
  _buckets (this (exec (step (reaction_job id)) w)) = older ++ [bump c_successes active]
  /\ returned <$> activations (exec (step (reaction_job id)) w) !! id = Some (Fulfilled v).
Proof.
  intros Ha Hn Hw Hp Hb.
  assert (Hr : racing id w) by (exists a; split; assumption).
  assert (Hne : _buckets (this w) <> []) by (rewrite Hb; destruct older; discriminate).
  assert (E : exec (step (reaction_job id)) w
              = exec (settle id (Fulfilled v)) (exec (increment id c_successes) w)).
  { unfold exec at 1. rewrite P_reaction_job_run, Ha. cbn [fmap option_fmap option_map].
    rewrite Hw. rewrite (P_on_fulfilled_racing w id v Hr Hne). reflexivity. }
  rewrite E.
  destruct (P_decide_effect w id c_successes (Fulfilled v) a older active Ha Hp Hb)
    as (H1 & H2).
  split; [exact H1|]. rewrite H2. reflexivity.
Qed.

(** X6.  On a circuit that is not open, a command that succeeds is counted
    once in [successes] of the active bucket.  In the promise variant the
    caller gets the command's value: the promise that [run] returned is
    fulfilled with it, whether the command returned the value, a promise
    already fulfilled with it, or a pending promise that is fulfilled with it
    later.  In the callback variant a command that calls [success] first
    makes [run] return with that one success counted, whatever callbacks it
    calls next. *)
Theorem X6_success_is_counted_and_returned :
  (forall (w : World) (v : JsValue) (older : list Bucket) (active : Bucket),
     eval isOpen w = Normal false ->
     _buckets (this w) = older ++ [active] ->
     let id := length (activations w) in
     let counted_once :=
       older ++ [mkBucket (failures active) (successes active + 1) (timeouts active)
                   (ignores active) (shortCircuits active)] in
     (forall command : Command,
        wrapPromise command = Fulfilled v ->
        let w2 := after [call_run command; reaction_job id] w in
        eval (run command) w = Normal (activation_promise id)
        /\ _buckets (this w2) = counted_once
        /\ returned <$> activations w2 !! id = Some (Fulfilled v))
     /\ (let w2 :=
           after [call_run (returns_promise Pending); command_settles id (Fulfilled v);
                  reaction_job id] w in
         _buckets (this w2) = counted_once
         /\ returned <$> activations w2 !! id = Some (Fulfilled v)))
  /\ (forall (w : Cb.World) (cs : list Cb.Callback) (fallback : option Cb.Fallback)
         (older : list Cb.Bucket) (active : Cb.Bucket),
        eval Cb.isOpen w = Normal false ->
        Cb._buckets (Cb.this w) = older ++ [active] ->
        eval (Cb.run (Cb.mkCommand (Cb.success :: cs) None) fallback) w = Normal tt
        /\ Cb._buckets
             (Cb.this (exec (Cb.run (Cb.mkCommand (Cb.success :: cs) None) fallback) w))
           = older ++ [Cb.mkBucket (Cb.failures active) (Cb.successes active + 1)
                         (Cb.timeouts active) (Cb.shortCircuits active)]).
Proof.
  split.
  - intros w v older active Ho Hb id counted_once. split.
    + intros command Hc w2.
      pose proof (P_run_not_open w command Ho) as E. fold id in E.
      unfold eval at 1. rewrite E. split; [reflexivity|].
      subst w2. change (after [call_run command; reaction_job id] w)
        with (exec (step (reaction_job id)) (exec (step (call_run command)) w)).
      rewrite P_step_run. unfold exec at 2 4. rewrite E. cbn [snd].
      apply (P_fulfilled_job_effect _ id
               (mkActivation (Some (S id)) (wrapPromise command) Pending) v older active);
        try reflexivity; try exact Hc; try exact Hb.
      apply lookup_last.
    + intros w2.
      pose proof (P_run_not_open w (returns_promise Pending) Ho) as E. fold id in E.
      subst w2.
      change (after [call_run (returns_promise Pending); command_settles id (Fulfilled v);
                     reaction_job id] w)
        with (exec (step (reaction_job id))
                (exec (step (command_settles id (Fulfilled v)))
                   (exec (step (call_run (returns_promise Pending))) w))).
      rewrite P_step_run. unfold exec at 3 6. rewrite E. cbn [snd].
      apply (P_fulfilled_job_effect _ id
               (mkActivation (Some (S id)) (Fulfilled v) Pending) v older active);
        try reflexivity; try exact Hb.
      unfold exec. simpl. unfold id. rewrite alter_last. apply lookup_last.
  - intros w cs fallback older active Ho Hb.
    unfold eval in Ho. rewrite C_isOpen_run in Ho. simpl in Ho. injection Ho as Ho.
    assert (Hne : Cb._buckets (Cb.this w) <> []) by (rewrite Hb; destruct older; discriminate).
    unfold eval, exec. rewrite C_run_run, Ho, C_executeCommand_run. cbv zeta.
    cbn [Cb.calls Cb.thrown].
    set (id := length (Cb.activations w)).
    set (w1 := Cb.mkWorld _ _ _ _).
    assert (Hr : Cb.racing id w1).
    { eexists. split; [apply lookup_last|reflexivity]. }
    rewrite (C_call_back_first w1 id Cb.success cs Hr Hne).
    pose proof (C_increment_racing w1 id Cb.c_successes older active Hr Hb) as E.
    pose proof (C_increment_buckets w1 id Cb.c_successes older active Hr Hb) as B.
    unfold exec in B at 1. rewrite E in B. cbn [snd] in B.
    cbn [Cb.call_back Cb.callback]. unfold bind. rewrite E. cbn [ret fst snd].
    split; [reflexivity|exact B].
Qed.

(** A new breaker, in each variant. *)
Lemma X6_success_is_counted_and_returned_witness :
  returned <$> activations
    (after [call_run (returns (JsNumber 7)); reaction_job 0] (new no_options)) !! 0%nat
  = Some (Fulfilled (JsNumber 7))
  /\ Cb._buckets
       (Cb.this (exec (Cb.run (Cb.mkCommand [Cb.success; Cb.failed] None) None)
                   (Cb.new Cb.no_options)))
     = [] ++ [Cb.mkBucket 0 (0 + 1) 0 0].
Proof.
  destruct X6_success_is_counted_and_returned as (H1 & H2).
  split.
  - assert (Ho : eval isOpen (new no_options) = Normal false) by reflexivity.
    assert (Hb : _buckets (this (new no_options)) = [] ++ [_createBucket]) by reflexivity.
    destruct (H1 (new no_options) (JsNumber 7) [] _createBucket Ho Hb) as (H & _).
    apply (H (returns (JsNumber 7))). reflexivity.
  - apply (H2 (Cb.new Cb.no_options) [Cb.failed] None [] Cb._createBucket); reflexivity.
Defined.

Lemma Sigma_le {A} (f g : A -> N) (l : list A) :
  (forall x, (f x <= g x)%N) -> (Sigma f l <= Sigma g l)%N.
Proof.
  intros H. induction l as [|x l IH]; simpl; [lia|]. specialize (H x). lia.
Qed.

Lemma P_metrics_bounds (bs : list Bucket) :
  (errorCount (specified_metrics bs) <= totalCount (specified_metrics bs))%N
  /\ (totalCount (specified_metrics bs) = 0%N ->
      errorCount (specified_metrics bs) = 0%N
      /\ errorPercentage (specified_metrics bs) = 0%float).
Proof.
  assert (H : (errorCount (specified_metrics bs) <= totalCount (specified_metrics bs))%N).
  { simpl. apply Sigma_le. intros x. lia. }
  split; [exact H|]. intros H0.
  assert (H1 : errorCount (specified_metrics bs) = 0%N) by lia.
  split; [exact H1|]. simpl in *. rewrite H0, H1. reflexivity.
Qed.

Lemma C_metrics_bounds (bs : list Cb.Bucket) :
  (errorCount (Cb.specified_metrics bs) <= totalCount (Cb.specified_metrics bs))%N
  /\ (totalCount (Cb.specified_metrics bs) = 0%N ->
      errorCount (Cb.specified_metrics bs) = 0%N
      /\ errorPercentage (Cb.specified_metrics bs) = 0%float).
Proof.
  assert (H : (errorCount (Cb.specified_metrics bs)
               <= totalCount (Cb.specified_metrics bs))%N).
  { simpl. apply Sigma_le. intros x. lia. }
  split; [exact H|]. intros H0.
  assert (H1 : errorCount (Cb.specified_metrics bs) = 0%N) by lia.
  split; [exact H1|]. simpl in *. rewrite H0, H1. reflexivity.
Qed.

(** X7.  In both variants the metrics that [_calculateMetrics] returns have
    [errorCount <= totalCount], and when [totalCount] is 0 the division is by
    1: [errorCount] is 0 and [errorPercentage] is the number 0, not [NaN]. *)
Theorem X7_metrics_of_an_empty_window :
  (forall w : World,
     exists m, eval _calculateMetrics w = Normal m
               /\ (errorCount m <= totalCount m)%N
               /\ (totalCount m = 0%N -> errorCount m = 0%N /\ errorPercentage m = 0%float))
  /\ (forall w : Cb.World,
        exists m, eval Cb._calculateMetrics w = Normal m
                  /\ (errorCount m <= totalCount m)%N
                  /\ (totalCount m = 0%N ->
                      errorCount m = 0%N /\ errorPercentage m = 0%float)).
Proof.
  split.
  - intros w. eexists. unfold eval. rewrite P_calculateMetrics_run.
    split; [reflexivity|]. apply P_metrics_bounds.
  - intros w. eexists. unfold eval. rewrite C_calculateMetrics_run.
    split; [reflexivity|]. apply C_metrics_bounds.
Qed.





(** X9.  In both variants [unforce()] while no state is forced copies the
    empty [_forced] into [_state]: the state is then [null], whatever it
    was, [isOpen()] is false, and [run] goes to the command even where the
    circuit was open. *)
Theorem X9_unforce_without_force_forgets_the_state :
  (forall (w : World) (command : Command),
     _forced (this w) = None ->
     let w1 := exec unforce w in
     _state (this w1) = None /\ _forced (this w1) = None
     /\ _buckets (this w1) = _buckets (this w)
     /\ eval isOpen w1 = Normal false
     /\ eval (run command) w1 = Normal (activation_promise (length (activations w)))
     /\ trace (exec (run command) w1)
        = trace w ++ [command_called (length (activations w))])
  /\ (forall (w : Cb.World) (command : Cb.Command) (fallback : option Cb.Fallback),
        Cb._forced (Cb.this w) = None ->
        let w1 := exec Cb.unforce w in
        Cb._state (Cb.this w1) = None /\ Cb._forced (Cb.this w1) = None
        /\ Cb._buckets (Cb.this w1) = Cb._buckets (Cb.this w)
        /\ eval Cb.isOpen w1 = Normal false
        /\ Cb.run command fallback w1 = Cb._executeCommand command w1).
Proof.
  split.
  - intros w command Hf w1.
    assert (Hs : _state (this w1) = None) by (subst w1; simpl; exact Hf).
    split; [exact Hs|]. split; [reflexivity|]. split; [reflexivity|].
    split; [unfold eval; rewrite P_isOpen_run, Hs; reflexivity|].
    unfold eval, exec. rewrite P_run_run, Hs. split; reflexivity.
  - intros w command fallback Hf w1.
    assert (Hs : Cb._state (Cb.this w1) = None) by (subst w1; simpl; exact Hf).
    split; [exact Hs|]. split; [reflexivity|]. split; [reflexivity|].
    split; [unfold eval; rewrite C_isOpen_run, Hs; reflexivity|].
    rewrite C_run_run, Hs. reflexivity.
Qed.

(** Six failures open the circuit of a new breaker; [unforce()] then lets the
    next command through. *)
Lemma X9_unforce_without_force_forgets_the_state_witness :
  (let w := after (flat_map test_fail (seq 0 6)) (new no_options) in
   _state (this w) = Some OPEN
   /\ trace (exec (run (returns JsNull)) (exec unforce w))
      = trace w ++ [command_called (length (activations w))])
  /\ (let w := Cb.after (replicate 6 Cb.test_fail) (Cb.new Cb.no_options) in
      Cb._state (Cb.this w) = Some OPEN
      /\ Cb.run (Cb.mkCommand [Cb.success] None) None (exec Cb.unforce w)
         = Cb._executeCommand (Cb.mkCommand [Cb.success] None) (exec Cb.unforce w)).
Proof.
  destruct X9_unforce_without_force_forgets_the_state as (H1 & H2).
  split.
  - intros w.
    assert (Hf : _forced (this w) = None) by (vm_compute; reflexivity).
    split; [vm_compute; reflexivity|].
    apply (H1 w (returns JsNull) Hf).
  - intros w.
    assert (Hf : Cb._forced (Cb.this w) = None) by (vm_compute; reflexivity).
    split; [vm_compute; reflexivity|].
    apply (H2 w (Cb.mkCommand [Cb.success] None) None Hf).
Defined.




Lemma Sigma_app {A} (f : A -> N) (l l' : list A) :
  Sigma f (l ++ l') = (Sigma f l + Sigma f l')%N.
Proof. induction l as [|x l IH]; simpl; [reflexivity|]. rewrite IH. lia. Qed.



Lemma length_filter_alter_drop {A} (P : A -> Prop) `{!forall x, Decision (P x)}
    (f : A -> A) (i : nat) (l : list A) (a : A) :
  l !! i = Some a -> P a -> ~ P (f a) ->
  S (length (filter P (alter f i l))) = length (filter P l).
Proof.
  revert i. induction l as [|x l IH]; intros i Hl Ha Hf; [discriminate|].
  destruct i as [|i]; simpl in *.
  - injection Hl as ->. rewrite !filter_cons.
    destruct (decide (P (f a))), (decide (P a)); simpl; tauto.
  - rewrite !filter_cons. destruct (decide (P x)); simpl; [f_equal|]; apply (IH i Hl Ha Hf).
Qed.





(** A callback of an activation does nothing, or decides its race. *)
Lemma P_handler_cases (w : World) (id : nat) (a : Action) :
  handler_of id a = true -> _buckets (this w) <> [] ->
  exec (step a) w = w
  \/ (racing id w
      /\ exists prop p, exec (step a) w = exec (settle id p) (exec (increment id prop) w)).
Proof.
  intros Ha Hne.
  destruct (activations w !! id) as [x|] eqn:Hx.
  - destruct (no_handle (timeout x)) eqn:Hn.
    + left. unfold exec. rewrite (P_handler_decided w id a); [reflexivity| |exact Ha].
      exists x. split; assumption.
    + assert (Hr : racing id w) by (exists x; split; assumption).
      destruct a as [| | | | |j|j q|j]; simpl in Ha; try discriminate;
        apply Nat.eqb_eq in Ha; subst j.
      * right. split; [exact Hr|]. exists c_timeouts, (Rejected CircuitWorkerTimeout).
        unfold exec at 1. change (step (deadline_fires id)) with (on_deadline id).
        rewrite (P_on_deadline_racing w id Hr Hne). reflexivity.
      * assert (E : step (reaction_job id) w
                    = match wrapped x with
                      | Pending => (Normal tt, w)
                      | Fulfilled result => on_fulfilled id result w
                      | Rejected reason => on_rejected id reason w
                      end).
        { rewrite P_reaction_job_run, Hx. simpl. destruct (wrapped x); reflexivity. }
        unfold exec at 1 2. rewrite E. clear E.
        destruct (wrapped x) as [|result|reason].
        -- left. reflexivity.
        -- right. split; [exact Hr|]. exists c_successes, (Fulfilled result).
           rewrite (P_on_fulfilled_racing w id result Hr Hne). reflexivity.
        -- right. split; [exact Hr|].
           exists (if circuitFilter (this w) reason then c_failures else c_ignores),
             (Rejected reason).
           rewrite (P_on_rejected_racing w id reason Hr Hne). reflexivity.
  - left. destruct a as [| | | | |j|j q|j]; simpl in Ha; try discriminate;
      apply Nat.eqb_eq in Ha; subst j.
    + unfold exec. simpl. unfold on_deadline, bind, get_timeout, gets. rewrite Hx. reflexivity.
    + unfold exec. rewrite P_reaction_job_run, Hx. reflexivity.
Qed.




Lemma C_recorded_bump (prop : Cb.Counter) (b : Cb.Bucket) :
  Cb.recorded (Cb.bump prop b) = (Cb.recorded b + 1)%N.
Proof. destruct prop; unfold Cb.recorded; simpl; lia. Qed.

Lemma C_recorded_snoc (older : list Cb.Bucket) (active : Cb.Bucket)
    (f : Cb.Bucket -> Cb.Bucket) :
  Cb.recorded (f active) = (Cb.recorded active + 1)%N ->
  Sigma Cb.recorded (older ++ [f active]) = (Sigma Cb.recorded (older ++ [active]) + 1)%N.
Proof. intros H. rewrite !Sigma_app. simpl. rewrite H. lia. Qed.

Lemma C_increment_activations (w : Cb.World) (id : nat) (prop : Cb.Counter) :
  Cb.racing id w -> Cb._buckets (Cb.this w) <> [] ->
  Cb.activations (exec (Cb.increment id prop) w)
  = alter (fun _ => Cb.mkActivation None) id (Cb.activations w).
Proof.
  intros Hr Hne. destruct (nonempty_snoc _ Hne) as (older & active & Hb).
  unfold exec at 1. rewrite (C_increment_racing w id prop older active Hr Hb).
  cbn [snd]. set (w1 := Cb.on_this _ w).
  assert (Hact : Cb.activations (exec (when (is_null (Cb._forced (Cb.this w))) Cb._updateState) w1)
                 = Cb.activations w).
  { destruct (is_null _); simpl; [rewrite C_updateState_activations|]; reflexivity. }
  set (w2 := exec (when _ _) w1) in *.
  unfold Cb.set_timeout, exec, modify, Cb.on_activations. cbn [snd Cb.activations].
  rewrite Hact. reflexivity.
Qed.

(** A call of [increment(prop)()] returns; it does nothing, or it decides the
    race and moves one unit from the open races to the counters. *)
Lemma C_increment_accounts (w : Cb.World) (id : nat) (prop : Cb.Counter) :
  Cb._buckets (Cb.this w) <> [] ->
  let w' := exec (Cb.increment id prop) w in
  Cb.increment id prop w = (Normal tt, w')
  /\ Cb._buckets (Cb.this w') <> []
  /\ (Cb.recorded_total w' + N.of_nat (Cb.open_races w')
      = Cb.recorded_total w + N.of_nat (Cb.open_races w))%N.
Proof.
  intros Hne w'.
  assert (Hsame : Cb.increment id prop w = (Normal tt, w) ->
                  Cb.increment id prop w = (Normal tt, w')
                  /\ Cb._buckets (Cb.this w') <> []
                  /\ (Cb.recorded_total w' + N.of_nat (Cb.open_races w')
                      = Cb.recorded_total w + N.of_nat (Cb.open_races w))%N).
  { intros E. assert (E' : w' = w) by (subst w'; unfold exec; rewrite E; reflexivity).
    rewrite E'. split; [exact E|]. split; [exact Hne|reflexivity]. }
  destruct (Cb.activations w !! id) as [x|] eqn:Hx.
  - destruct (no_handle (Cb.timeout x)) eqn:Hn.
    + apply Hsame, C_increment_decided. exists x. split; assumption.
    + clear Hsame.
      assert (Hr : Cb.racing id w) by (exists x; split; assumption).
      destruct (nonempty_snoc _ Hne) as (older & active & Hb).
      pose proof (C_increment_buckets w id prop older active Hr Hb) as B. fold w' in B.
      pose proof (C_increment_activations w id prop Hr Hne) as A. fold w' in A.
      split; [|split].
      * subst w'. unfold exec. rewrite (C_increment_racing w id prop older active Hr Hb).
        reflexivity.
      * rewrite B. destruct older; discriminate.
      * unfold Cb.recorded_total, Cb.open_races. rewrite B, A, Hb.
        rewrite (C_recorded_snoc older active (Cb.bump prop)) by apply C_recorded_bump.
        pose proof (length_filter_alter_drop
                      (fun a => no_handle (Cb.timeout a) = false)
                      (fun _ => Cb.mkActivation None) id (Cb.activations w) x Hx Hn) as D.
        cbv beta in D. rewrite <- D by (simpl; discriminate). lia.
  - apply Hsame. unfold Cb.increment, bind, Cb.get_timeout, gets. rewrite Hx. reflexivity.
Qed.

Lemma C_callback_is_increment (id : nat) (c : Cb.Callback) :
  Cb.callback id c
  = Cb.increment id (match c with Cb.success => Cb.c_successes | Cb.failed => Cb.c_failures end).
Proof. destruct c; reflexivity. Qed.

Lemma C_call_back_accounts (id : nat) (cs : list Cb.Callback) (w : Cb.World) :
  Cb._buckets (Cb.this w) <> [] ->
  let w' := exec (Cb.call_back id cs) w in
  Cb.call_back id cs w = (Normal tt, w')
  /\ Cb._buckets (Cb.this w') <> []
  /\ (Cb.recorded_total w' + N.of_nat (Cb.open_races w')
      = Cb.recorded_total w + N.of_nat (Cb.open_races w))%N.
Proof.
  revert w. induction cs as [|c cs IH]; intros w Hne w'.
  - split; [reflexivity|]. split; [exact Hne|reflexivity].
  - destruct (C_increment_accounts w id
                (match c with Cb.success => Cb.c_successes | Cb.failed => Cb.c_failures end)
                Hne) as (E & Hne1 & H1).
    rewrite <- C_callback_is_increment in E, Hne1, H1.
    destruct (IH _ Hne1) as (E2 & Hne2 & H2).
    assert (Ew : Cb.call_back id (c :: cs) w
                 = (Normal tt, exec (Cb.call_back id cs) (exec (Cb.callback id c) w))).
    { cbn [Cb.call_back]. rewrite (exec_bind _ _ _ _ _ E). exact E2. }
    assert (Ew' : w' = exec (Cb.call_back id cs) (exec (Cb.callback id c) w))
      by (subst w'; unfold exec at 1; rewrite Ew; reflexivity).
    rewrite Ew'. split; [exact Ew|]. split; [exact Hne2|]. rewrite H2. exact H1.
Qed.






Lemma P_errors_after_bump (prop : Counter) (older : list Bucket) (active : Bucket) :
  prop = c_failures \/ prop = c_timeouts ->
  (0 <? errorCount (specified_metrics (older ++ [bump prop active])))%N = true.
Proof.
  intros H. apply N.ltb_lt. cbn [specified_metrics errorCount]. rewrite Sigma_app.
  destruct H as [-> | ->]; simpl; lia.
Qed.

Lemma C_errors_after_bump (prop : Cb.Counter) (older : list Cb.Bucket) (active : Cb.Bucket) :
  prop = Cb.c_failures \/ prop = Cb.c_timeouts ->
  (0 <? errorCount (Cb.specified_metrics (older ++ [Cb.bump prop active])))%N = true.
Proof.
  intros H. apply N.ltb_lt. cbn [Cb.specified_metrics errorCount]. rewrite Sigma_app.
  destruct H as [-> | ->]; simpl; lia.
Qed.

(** A failure or a timeout counted on a half-open circuit whose active bucket
    has no success opens it again, and [onCircuitOpen] is told. *)
Lemma P_failed_probe (w : World) (id : nat) (prop : Counter)
    (older : list Bucket) (active : Bucket) :
  prop = c_failures \/ prop = c_timeouts ->
  _state (this w) = Some HALF_OPEN ->
  _forced (this w) = None ->
  _buckets (this w) = older ++ [active] ->
  successes active = 0%N ->
  _state (this (exec (increment id prop) w)) = Some OPEN
  /\ trace (exec (increment id prop) w)
     = trace w ++ [onCircuitOpen (specified_metrics (older ++ [bump prop active]))].
Proof.
  intros Hp Hs Hf Hb H0.
  unfold exec at 1 2. rewrite (P_increment_run w id prop older active Hb). cbn [snd].
  rewrite Hf. cbn [is_null when].
  set (w0 := on_this _ w).
  assert (E : _updateState w0
              = (Normal tt, opened (specified_metrics (older ++ [bump prop active])) w0)).
  { rewrite (P_updateState_run_half_open w0 older (bump prop active)).
    - cbv zeta. change (_buckets (this w0)) with (older ++ [bump prop active]).
      rewrite (P_errors_after_bump prop older active Hp).
      replace (successes (bump prop active)) with 0%N
        by (destruct Hp as [-> | ->]; simpl; symmetry; exact H0).
      reflexivity.
    - change (_state (this w0)) with (_state (this w)). rewrite Hs. reflexivity.
    - reflexivity. }
  unfold exec at 2 4. rewrite E. cbn [snd]. split; reflexivity.
Qed.

(** The same in the callback variant, where [onCircuitOpen] is not told. *)
Lemma C_failed_probe (w : Cb.World) (id : nat) (prop : Cb.Counter)
    (older : list Cb.Bucket) (active : Cb.Bucket) :
  prop = Cb.c_failures \/ prop = Cb.c_timeouts ->
  Cb.racing id w ->
  Cb._state (Cb.this w) = Some HALF_OPEN ->
  Cb._forced (Cb.this w) = None ->
  Cb._buckets (Cb.this w) = older ++ [active] ->
  Cb.successes active = 0%N ->
  Cb._state (Cb.this (exec (Cb.increment id prop) w)) = Some OPEN
  /\ Cb.trace (exec (Cb.increment id prop) w) = Cb.trace w.
Proof.
  intros Hp Hr Hs Hf Hb H0.
  unfold exec at 1 2. rewrite (C_increment_racing w id prop older active Hr Hb). cbn [snd].
  rewrite Hf. cbn [is_null when].
  set (w0 := Cb.on_this _ w).
  assert (E : Cb._updateState w0 = (Normal tt, Cb.on_this (Cb.set_state (Some OPEN)) w0)).
  { rewrite (C_updateState_run_half_open w0 older (Cb.bump prop active)).
    - cbv zeta. change (Cb._buckets (Cb.this w0)) with (older ++ [Cb.bump prop active]).
      rewrite (C_errors_after_bump prop older active Hp).
      replace (Cb.successes (Cb.bump prop active)) with 0%N
        by (destruct Hp as [-> | ->]; simpl; symmetry; exact H0).
      reflexivity.
    - change (Cb._state (Cb.this w0)) with (Cb._state (Cb.this w)). rewrite Hs. reflexivity.
    - reflexivity. }
  unfold exec at 2 4. rewrite E. cbn [snd]. split; reflexivity.
Qed.

(** X12.  A probe that fails or times out opens the circuit again: on a
    half-open breaker with no forced state whose active bucket has no
    success, the deadline of an open race, and likewise the failure of its
    command, sets the state to [OPEN].  The promise variant then calls
    [onCircuitOpen] with the metrics that include the new count; the callback
    variant calls no observer. *)
Theorem X12_failed_probe_reopens :
  (forall (w : World) (id : nat) (a : Activation) (older : list Bucket) (active : Bucket),
     _state (this w) = Some HALF_OPEN ->
     _forced (this w) = None ->
     activations w !! id = Some a ->
     no_handle (timeout a) = false ->
     _buckets (this w) = older ++ [active] ->
     successes active = 0%N ->
     (let w1 := exec (step (deadline_fires id)) w in
      _state (this w1) = Some OPEN
      /\ trace w1
         = trace w ++ [onCircuitOpen (specified_metrics (older ++ [bump c_timeouts active]))])
     /\ (forall reason : JsValue,
           wrapped a = Rejected reason ->
           circuitFilter (this w) reason = true ->
           let w1 := exec (step (reaction_job id)) w in
           _state (this w1) = Some OPEN
           /\ trace w1
              = trace w
                ++ [onCircuitOpen (specified_metrics (older ++ [bump c_failures active]))]))
  /\ (forall (w : Cb.World) (id : nat) (older : list Cb.Bucket) (active : Cb.Bucket),
        Cb._state (Cb.this w) = Some HALF_OPEN ->
        Cb._forced (Cb.this w) = None ->
        Cb.racing id w ->
        Cb._buckets (Cb.this w) = older ++ [active] ->
        Cb.successes active = 0%N ->
        (let w1 := exec (Cb.step (Cb.deadline_fires id)) w in
         Cb._state (Cb.this w1) = Some OPEN /\ Cb.trace w1 = Cb.trace w)
        /\ (let w1 := exec (Cb.step (Cb.callback_called id Cb.failed)) w in
            Cb._state (Cb.this w1) = Some OPEN /\ Cb.trace w1 = Cb.trace w)).
Proof.
  split.
  - intros w id a older active Hs Hf Ha Hn Hb H0.
    assert (Hr : racing id w) by (exists a; split; assumption).
    assert (Hne : _buckets (this w) <> []) by (rewrite Hb; destruct older; discriminate).
    split.
    + intros w1.
      assert (E : w1 = exec (settle id (Rejected CircuitWorkerTimeout))
                         (exec (increment id c_timeouts) w)).
      { subst w1. unfold exec at 1. change (step (deadline_fires id)) with (on_deadline id).
        rewrite (P_on_deadline_racing w id Hr Hne). reflexivity. }
      rewrite E.
      apply (P_failed_probe w id c_timeouts older active); auto.
    + intros reason Hw Hc w1.
      assert (E : w1 = exec (settle id (Rejected reason)) (exec (increment id c_failures) w)).
      { subst w1. unfold exec at 1. rewrite P_reaction_job_run, Ha. simpl. rewrite Hw.
        rewrite (P_on_rejected_racing w id reason Hr Hne), Hc. reflexivity. }
      rewrite E.
      apply (P_failed_probe w id c_failures older active); auto.
  - intros w id older active Hs Hf Hr Hb H0. split.
    + intros w1. apply (C_failed_probe w id Cb.c_timeouts older active); auto.
    + intros w1. apply (C_failed_probe w id Cb.c_failures older active); auto.
Qed.

(** Ten ticks, six failures that open the circuit, the tick that makes it
    half-open, and a probe that is left pending. *)
Lemma X12_failed_probe_reopens_witness :
  (let w := after (replicate 10 interval_fires ++ flat_map test_fail (seq 0 6)
                   ++ [interval_fires; call_run (returns_promise Pending)])
              (new no_options) in
   _state (this w) = Some HALF_OPEN
   /\ _state (this (exec (step (deadline_fires 6)) w)) = Some OPEN)
  /\ (let w := Cb.after (replicate 10 Cb.interval_fires ++ replicate 6 Cb.test_fail
                         ++ [Cb.interval_fires; Cb.call_run (Cb.mkCommand [] None) None])
                 (Cb.new Cb.no_options) in
      Cb._state (Cb.this w) = Some HALF_OPEN
      /\ Cb.trace (exec (Cb.step (Cb.deadline_fires 6)) w) = Cb.trace w).
Proof.
  destruct X12_failed_probe_reopens as (H1 & H2).
  split.
  - intros w.
    assert (Hs : _state (this w) = Some HALF_OPEN) by (vm_compute; reflexivity).
    assert (Hf : _forced (this w) = None) by (vm_compute; reflexivity).
    assert (Ha : activations w !! 6%nat = Some (mkActivation (Some 7%nat) Pending Pending))
      by (vm_compute; reflexivity).
    assert (Hb : _buckets (this w)
                 = replicate 9 _createBucket ++ [mkBucket 6 0 0 0 0] ++ [_createBucket])
      by (vm_compute; reflexivity).
    rewrite app_assoc in Hb.
    split; [exact Hs|].
    destruct (H1 w 6%nat _ _ _ Hs Hf Ha eq_refl Hb eq_refl) as ((H & _) & _). exact H.
  - intros w.
    assert (Hs : Cb._state (Cb.this w) = Some HALF_OPEN) by (vm_compute; reflexivity).
    assert (Hf : Cb._forced (Cb.this w) = None) by (vm_compute; reflexivity).
    assert (Hr : Cb.racing 6 w).
    { exists (Cb.mkActivation (Some 7%nat)). split; vm_compute; reflexivity. }
    assert (Hb : Cb._buckets (Cb.this w)
                 = replicate 9 Cb._createBucket ++ [Cb.mkBucket 6 0 0 0] ++ [Cb._createBucket])
      by (vm_compute; reflexivity).
    rewrite app_assoc in Hb.
    split; [exact Hs|].
    destruct (H2 w 6%nat _ _ Hs Hf Hr Hb eq_refl) as ((_ & H) & _). exact H.
Defined.

Lemma P_increment_forced (w : World) (id : nat) (prop : Counter) :
  _forced (this w) <> None -> _buckets (this w) <> [] ->
  _state (this (exec (increment id prop) w)) = _state (this w)
  /\ _forced (this (exec (increment id prop) w)) = _forced (this w).
Proof.
  intros Hf Hne. destruct (nonempty_snoc _ Hne) as (older & active & Hb).
  unfold exec at 1 2. rewrite (P_increment_run w id prop older active Hb). cbn [snd].
  destruct (_forced (this w)) as [saved|] eqn:E; [|contradiction].
  split; [reflexivity|]. simpl. exact E.
Qed.

(** A breaker that is forced closed stays so under every action but
    [forceOpen] and [unforce]. *)
Lemma P_step_keeps_forced_closed (a : Action) (w : World) :
  a <> call_forceOpen -> a <> call_unforce ->
  _state (this w) = Some CLOSED /\ _forced (this w) <> None /\ _buckets (this w) <> [] ->
  _state (this (exec (step a) w)) = Some CLOSED
  /\ _forced (this (exec (step a) w)) <> None
  /\ _buckets (this (exec (step a) w)) <> [].
Proof.
  intros Ho Hu (Hs & Hf & Hne).
  assert (Hb := P_step_keeps_buckets a w Hne).
  assert (Hh : forall id, handler_of id a = true ->
                 _state (this (exec (step a) w)) = Some CLOSED
                 /\ _forced (this (exec (step a) w)) <> None).
  { intros id Hid.
    destruct (P_handler_cases w id a Hid Hne) as [->|(_ & prop & p & ->)]; [tauto|].
    change (this (exec (settle id p) (exec (increment id prop) w)))
      with (this (exec (increment id prop) w)).
    destruct (P_increment_forced w id prop Hf Hne) as (-> & ->). tauto. }
  split; [|split; [|exact Hb]];
    destruct a as [command| | | | |id|id p|id]; try contradiction;
    try (apply (Hh id); simpl; apply Nat.eqb_refl);
    try (rewrite P_step_run; unfold exec; rewrite P_run_run, Hs; assumption);
    try (unfold exec; simpl step; rewrite P_tick_run; cbn [snd]; cbv zeta; rewrite Hs;
         cbn [loose_eq]; rewrite ?andb_false_r; assumption);
    try (simpl; assumption).
  - simpl. reflexivity.
  - simpl. rewrite Hs. discriminate.
Qed.

Lemma P_after_keeps_forced_closed (acts : list Action) (w : World) :
  Forall (fun a => a <> call_forceOpen /\ a <> call_unforce) acts ->
  _state (this w) = Some CLOSED /\ _forced (this w) <> None /\ _buckets (this w) <> [] ->
  _state (this (after acts w)) = Some CLOSED
  /\ _forced (this (after acts w)) <> None
  /\ _buckets (this (after acts w)) <> [].
Proof.
  revert w. induction acts as [|a acts IH]; intros w Hf I; [exact I|].
  inversion Hf as [|? ? (H1 & H2) Hf']; subst.
  change (after (a :: acts) w) with (after acts (exec (step a) w)).
  apply IH; [exact Hf'|]. apply P_step_keeps_forced_closed; assumption.
Qed.

Lemma C_increment_forced (w : Cb.World) (id : nat) (prop : Cb.Counter) :
  Cb._forced (Cb.this w) <> None -> Cb._buckets (Cb.this w) <> [] ->
  Cb._state (Cb.this (exec (Cb.increment id prop) w)) = Cb._state (Cb.this w)
  /\ Cb._forced (Cb.this (exec (Cb.increment id prop) w)) = Cb._forced (Cb.this w).
Proof.
  intros Hf Hne.
  assert (Hsame : Cb.increment id prop w = (Normal tt, w) ->
                  Cb._state (Cb.this (exec (Cb.increment id prop) w)) = Cb._state (Cb.this w)
                  /\ Cb._forced (Cb.this (exec (Cb.increment id prop) w))
                     = Cb._forced (Cb.this w)).
  { intros E. unfold exec. rewrite E. split; reflexivity. }
  destruct (Cb.activations w !! id) as [x|] eqn:Hx.
  - destruct (no_handle (Cb.timeout x)) eqn:Hn.
    + apply Hsame, C_increment_decided. exists x. split; assumption.
    + assert (Hr : Cb.racing id w) by (exists x; split; assumption).
      destruct (nonempty_snoc _ Hne) as (older & active & Hb).
      unfold exec at 1 2. rewrite (C_increment_racing w id prop older active Hr Hb).
      cbn [snd]. destruct (Cb._forced (Cb.this w)) as [saved|] eqn:E; [|contradiction].
      split; [reflexivity|]. simpl. exact E.
  - apply Hsame. unfold Cb.increment, bind, Cb.get_timeout, gets. rewrite Hx. reflexivity.
Qed.

Lemma C_call_back_forced (id : nat) (cs : list Cb.Callback) (w : Cb.World) :
  Cb._forced (Cb.this w) <> None -> Cb._buckets (Cb.this w) <> [] ->
  Cb._state (Cb.this (exec (Cb.call_back id cs) w)) = Cb._state (Cb.this w)
  /\ Cb._forced (Cb.this (exec (Cb.call_back id cs) w)) = Cb._forced (Cb.this w).
Proof.
  revert w. induction cs as [|c cs IH]; intros w Hf Hne; [split; reflexivity|].
  destruct (C_increment_accounts w id
              (match c with Cb.success => Cb.c_successes | Cb.failed => Cb.c_failures end)
              Hne) as (E & Hne1 & _).
  destruct (C_increment_forced w id
              (match c with Cb.success => Cb.c_successes | Cb.failed => Cb.c_failures end)
              Hf Hne) as (S1 & F1).
  rewrite <- C_callback_is_increment in E, Hne1, S1, F1.
  assert (Ew : exec (Cb.call_back id (c :: cs)) w
               = exec (Cb.call_back id cs) (exec (Cb.callback id c) w)).
  { unfold exec at 1. cbn [Cb.call_back]. rewrite (exec_bind _ _ _ _ _ E). reflexivity. }
  rewrite Ew. rewrite <- F1 in Hf. destruct (IH _ Hf Hne1) as (-> & ->). split; assumption.
Qed.

Lemma C_step_keeps_forced_closed (a : Cb.Action) (w : Cb.World) :
  a <> Cb.call_forceOpen -> a <> Cb.call_unforce ->
  Cb._state (Cb.this w) = Some CLOSED /\ Cb._forced (Cb.this w) <> None
  /\ Cb._buckets (Cb.this w) <> [] ->
  Cb._state (Cb.this (exec (Cb.step a) w)) = Some CLOSED
  /\ Cb._forced (Cb.this (exec (Cb.step a) w)) <> None
  /\ Cb._buckets (Cb.this (exec (Cb.step a) w)) <> [].
Proof.
  intros Ho Hu (Hs & Hf & Hne).
  assert (Hb := C_step_keeps_buckets a w Hne).
  assert (Hi : forall id prop,
                 Cb._state (Cb.this (exec (Cb.increment id prop) w)) = Some CLOSED
                 /\ Cb._forced (Cb.this (exec (Cb.increment id prop) w)) <> None).
  { intros id prop. destruct (C_increment_forced w id prop Hf Hne) as (-> & ->). tauto. }
  assert (Hr : forall command fallback,
                 Cb._state (Cb.this (exec (Cb.run command fallback) w)) = Some CLOSED
                 /\ Cb._forced (Cb.this (exec (Cb.run command fallback) w)) <> None).
  { intros command fallback. unfold exec. rewrite C_run_run, Hs.
    change (loose_eq (Some CLOSED) OPEN) with false. cbv iota.
    rewrite C_executeCommand_run. cbv zeta.
    set (id := length (Cb.activations w)). set (w1 := Cb.mkWorld _ _ _ _).
    destruct (C_call_back_accounts id (Cb.calls command) w1 Hne) as (E & _ & _).
    destruct (C_call_back_forced id (Cb.calls command) w1 Hf Hne) as (S1 & F1).
    rewrite E.
    assert (Es : snd (match Cb.thrown command with
                      | Some e => (Throw e, exec (Cb.call_back id (Cb.calls command)) w1)
                      | None => (Normal tt, exec (Cb.call_back id (Cb.calls command)) w1)
                      end) = exec (Cb.call_back id (Cb.calls command)) w1)
      by (destruct (Cb.thrown command); reflexivity).
    rewrite Es, S1, F1. split; [exact Hs|exact Hf]. }
  split; [|split; [|exact Hb]];
    destruct a as [command fallback| | | | |id|id c]; try contradiction;
    try (apply Hr);
    try (apply (Hi id Cb.c_timeouts));
    try (cbn [Cb.step]; rewrite C_callback_is_increment; apply Hi);
    try (unfold exec; simpl Cb.step; rewrite C_tick_run; cbn [snd]; cbv zeta; rewrite Hs;
         cbn [loose_eq]; rewrite ?andb_false_r; assumption).
  - simpl. reflexivity.
  - simpl. rewrite Hs. discriminate.
Qed.

Lemma C_after_keeps_forced_closed (acts : list Cb.Action) (w : Cb.World) :
  Forall (fun a => a <> Cb.call_forceOpen /\ a <> Cb.call_unforce) acts ->
  Cb._state (Cb.this w) = Some CLOSED /\ Cb._forced (Cb.this w) <> None
  /\ Cb._buckets (Cb.this w) <> [] ->
  Cb._state (Cb.this (Cb.after acts w)) = Some CLOSED
  /\ Cb._forced (Cb.this (Cb.after acts w)) <> None
  /\ Cb._buckets (Cb.this (Cb.after acts w)) <> [].
Proof.
  revert w. induction acts as [|a acts IH]; intros w Hf I; [exact I|].
  inversion Hf as [|? ? (H1 & H2) Hf']; subst.
  change (Cb.after (a :: acts) w) with (Cb.after acts (exec (Cb.step a) w)).
  apply IH; [exact Hf'|]. apply C_step_keeps_forced_closed; assumption.
Qed.

(** X13.  In both variants a breaker that is forced closed while its state
    is not [null] stays closed, whatever commands fail or time out and
    whatever ticks come, until [forceOpen()] or [unforce()] is called:
    [isOpen()] is false and [run] goes to the command. *)
Theorem X13_forced_closed_stays_closed :
  (forall (w : World) (acts : list Action) (command : Command),
     _state (this w) <> None ->
     _buckets (this w) <> [] ->
     Forall (fun a => a <> call_forceOpen /\ a <> call_unforce) acts ->
     let w1 := after acts (exec forceClose w) in
     _state (this w1) = Some CLOSED
     /\ eval isOpen w1 = Normal false
     /\ eval (run command) w1 = Normal (activation_promise (length (activations w1))))
  /\ (forall (w : Cb.World) (acts : list Cb.Action) (command : Cb.Command)
         (fallback : option Cb.Fallback),
        Cb._state (Cb.this w) <> None ->
        Cb._buckets (Cb.this w) <> [] ->
        Forall (fun a => a <> Cb.call_forceOpen /\ a <> Cb.call_unforce) acts ->
        let w1 := Cb.after acts (exec Cb.forceClose w) in
        Cb._state (Cb.this w1) = Some CLOSED
        /\ eval Cb.isOpen w1 = Normal false
        /\ Cb.run command fallback w1 = Cb._executeCommand command w1).
Proof.
  split.
  - intros w acts command Hs Hne Hf w1.
    assert (I : _state (this w1) = Some CLOSED /\ _forced (this w1) <> None
                /\ _buckets (this w1) <> []).
    { apply P_after_keeps_forced_closed; [exact Hf|].
      split; [reflexivity|]. split; [exact Hs|exact Hne]. }
    destruct I as (E & _ & _). split; [exact E|].
    unfold eval. rewrite P_isOpen_run, P_run_run, E. split; reflexivity.
  - intros w acts command fallback Hs Hne Hf w1.
    assert (I : Cb._state (Cb.this w1) = Some CLOSED /\ Cb._forced (Cb.this w1) <> None
                /\ Cb._buckets (Cb.this w1) <> []).
    { apply C_after_keeps_forced_closed; [exact Hf|].
      split; [reflexivity|]. split; [exact Hs|exact Hne]. }
    destruct I as (E & _ & _). split; [exact E|].
    unfold eval. rewrite C_isOpen_run, C_run_run, E. split; reflexivity.
Qed.

(** A breaker that six failures have opened is forced closed; six more
    failures and eleven ticks later it is still closed. *)
Lemma X13_forced_closed_stays_closed_witness :
  (let w := after (flat_map test_fail (seq 0 6)) (new no_options) in
   let acts := flat_map test_fail (seq 6 6) ++ replicate 11 interval_fires in
   _state (this w) = Some OPEN
   /\ _state (this (after acts (exec forceClose w))) = Some CLOSED)
  /\ (let w := Cb.after (replicate 6 Cb.test_fail) (Cb.new Cb.no_options) in
      let acts := replicate 6 Cb.test_fail ++ replicate 11 Cb.interval_fires in
      Cb._state (Cb.this w) = Some OPEN
      /\ Cb._state (Cb.this (Cb.after acts (exec Cb.forceClose w))) = Some CLOSED).
Proof.
  destruct X13_forced_closed_stays_closed as (H1 & H2).
  split.
  - intros w acts.
    assert (Hs : _state (this w) = Some OPEN) by (vm_compute; reflexivity).
    assert (Hn : _state (this w) <> None) by (rewrite Hs; discriminate).
    assert (Hne : _buckets (this w) <> []) by (vm_compute; discriminate).
    assert (Hf : Forall (fun a => a <> call_forceOpen /\ a <> call_unforce) acts)
      by (subst acts; repeat constructor; discriminate).
    split; [exact Hs|].
    exact (proj1 (H1 w acts (returns JsNull) Hn Hne Hf)).
  - intros w acts.
    assert (Hs : Cb._state (Cb.this w) = Some OPEN) by (vm_compute; reflexivity).
    assert (Hn : Cb._state (Cb.this w) <> None) by (rewrite Hs; discriminate).
    assert (Hne : Cb._buckets (Cb.this w) <> []) by (vm_compute; discriminate).
    assert (Hf : Forall (fun a => a <> Cb.call_forceOpen /\ a <> Cb.call_unforce) acts)
      by (subst acts; repeat constructor; discriminate).
    split; [exact Hs|].
    exact (proj1 (H2 w acts (Cb.mkCommand [] None) None Hn Hne Hf)).
Defined.

End More.
